(** * rview: the simple data viewer's client-side table engine

    A shallow embedding of the parts of the extension that the data viewer's
    filter / sort / render-window / column-resize pipeline and its error page
    are made of, and of the loading of the data, the detection of data
    frames and the folding of code sections, followed by the properties
    proved about them.

    JavaScript strings are sequences of UTF-16 code units; they are modelled
    as lists of code units ([list N]).  JavaScript numbers are IEEE-754
    binary64 values; they are modelled by the Standard Library's
    [spec_float] at precision 53 and maximal exponent 1024. *)

From Stdlib Require Import ZArith NArith List Bool Ascii String Lia Sorted.
From Stdlib Require Import Floats.SpecFloat.
From stdpp Require Import base option list gmap.

Set Default Proof Using "Type".
Local Open Scope N_scope.

(** ** JavaScript strings *)

Abbreviation jsstring := (list N).

(** Code unit of an ASCII character, and the string of an ASCII literal. *)
Definition chr (a : ascii) : N := N_of_ascii a.

Definition str (s : string) : jsstring := map chr (list_ascii_of_string s).
Arguments str s%_string.

Definition AMP : N := 38.   (* & *)
Definition LT_ : N := 60.   (* < *)
Definition GT_ : N := 62.   (* > *)
Definition QUOT : N := 34.  (* double quote *)
Definition APOS : N := 39.  (* single quote *)

(** [s.replace(/c/g, rep)] for a one-character pattern [c] and a replacement
    text [rep] that holds no [$] pattern. *)
Fixpoint replaceAll (c : N) (rep : jsstring) (s : jsstring) : jsstring :=
  match s with
  | [] => []
  | x :: s' => (if N.eqb x c then rep else [x]) ++ replaceAll c rep s'
  end.

(** ** [_escapeHtml] *)

Definition _escapeHtml (text : jsstring) : jsstring :=
  replaceAll APOS (str "&#039;")
    (replaceAll QUOT (str "&quot;")
      (replaceAll GT_ (str "&gt;")
        (replaceAll LT_ (str "&lt;")
          (replaceAll AMP (str "&amp;") text)))).

(** The five replacement entities. *)
Definition entities : list jsstring :=
  [str "&amp;"; str "&lt;"; str "&gt;"; str "&quot;"; str "&#039;"].

(** What one code unit of the input becomes. *)
Definition escapeUnit (x : N) : jsstring :=
  if N.eqb x AMP then str "&amp;"
  else if N.eqb x LT_ then str "&lt;"
  else if N.eqb x GT_ then str "&gt;"
  else if N.eqb x QUOT then str "&quot;"
  else if N.eqb x APOS then str "&#039;"
  else [x].

(** A code unit of markup: one of the four that open or close a tag or an
    attribute value. *)
Definition isMarkup (c : N) : Prop :=
  c = LT_ ∨ c = GT_ ∨ c = QUOT ∨ c = APOS.

(** The unit at position [i] of [out] opens one of the entities. *)
Definition startsEntity (out : jsstring) (i : nat) : Prop :=
  ∃ ent, ent ∈ entities ∧ ent `prefix_of` drop i out.

(** ** JavaScript numbers *)

Definition prec : Z := 53.
Definition emax : Z := 1024.

Abbreviation Number := spec_float.

Definition NaN : Number := S754_nan.
Definition Infinity (neg : bool) : Number := S754_infinity neg.

(** The Number value of an integer (round to nearest, ties to even). *)
Definition Number_ofZ (z : Z) : Number := binary_normalize prec emax z 0 false.

(** [isNaN(x)], [x - y], [-x], [x !== 0] and [x > 0] on numbers. *)
Definition isNaN (x : Number) : bool :=
  match x with S754_nan => true | _ => false end.

Definition Number_sub (x y : Number) : Number := SFsub prec emax x y.

Definition Number_neg (x : Number) : Number := SFopp x.

Definition Number_isNonZero (x : Number) : bool :=
  negb (SFeqb x (S754_zero false)).

Definition Number_isPositive (x : Number) : bool :=
  SFltb (S754_zero false) x.

Definition Number_isNegative (x : Number) : bool :=
  SFltb x (S754_zero false).

(** The Number value of the decimal [m * 10^e], [m] written with at most
    [nd] digits: correctly rounded.  Exponents so large or so small that the
    result is an infinity or a zero whatever the digits are answered without
    computing the power of ten. *)
Definition decimalToNumber (neg : bool) (m : Z) (nd : Z) (e : Z) : Number :=
  match m with
  | Zpos p =>
      if (400 <? e)%Z then S754_infinity neg
      else if (e + nd <? -400)%Z then S754_zero neg
      else if (0 <=? e)%Z then
        binary_normalize prec emax (if neg then - (m * 10 ^ e) else m * 10 ^ e)%Z 0 neg
      else
        match (10 ^ (- e))%Z with
        | Zpos q => SFdiv prec emax (S754_finite neg p 0) (S754_finite false q 0)
        | _ => S754_nan
        end
  | _ => S754_zero neg
  end.

(** ** String built-ins *)

(** [StrWhiteSpaceChar]: the white space and line terminator code units that
    [trim] and [parseFloat] skip. *)
Definition isWhiteSpace (c : N) : bool :=
  ((9 <=? c) && (c <=? 13)) || (c =? 32) || (c =? 160) || (c =? 5760)
  || ((8192 <=? c) && (c <=? 8202)) || (c =? 8232) || (c =? 8233)
  || (c =? 8239) || (c =? 8287) || (c =? 12288) || (c =? 65279).

Fixpoint trimStart (s : jsstring) : jsstring :=
  match s with
  | c :: s' => if isWhiteSpace c then trimStart s' else s
  | [] => []
  end.

Definition trimEnd (s : jsstring) : jsstring := rev (trimStart (rev s)).

Definition trim (s : jsstring) : jsstring := trimEnd (trimStart s).

(** [s.startsWith(p)]. *)
Fixpoint startsWith (p s : jsstring) : bool :=
  match p, s with
  | [], _ => true
  | x :: p', y :: s' => (x =? y) && startsWith p' s'
  | _ :: _, [] => false
  end.

(** [s.includes(p)]: [p] occurs in [s] at some position. *)
Fixpoint includes (s p : jsstring) : bool :=
  startsWith p s ||
  match s with
  | [] => false
  | _ :: s' => includes s' p
  end.

(** ** [parseFloat] *)

Definition isDigit (c : N) : bool := (48 <=? c) && (c <=? 57).

Definition digitVal (c : N) : Z := Z.of_N (c - 48).

(** The longest run of decimal digits that [s] starts with, and the rest. *)
Fixpoint takeDigits (s : jsstring) : jsstring * jsstring :=
  match s with
  | c :: s' =>
      if isDigit c then let (ds, r) := takeDigits s' in (c :: ds, r)
      else ([], s)
  | [] => ([], [])
  end.

Definition digitsValue (ds : jsstring) : Z :=
  fold_left (fun acc c => (10 * acc + digitVal c)%Z) ds 0%Z.

(** The value of the [ExponentPart] that [s] starts with; 0 when it starts
    with none (an [e] that no digit follows is not part of the literal). *)
Definition parseExponent (s : jsstring) : Z :=
  match s with
  | c :: s1 =>
      if (c =? chr "e") || (c =? chr "E") then
        match s1 with
        | sg :: s2 =>
            if sg =? chr "-" then (- digitsValue (fst (takeDigits s2)))%Z
            else if sg =? chr "+" then digitsValue (fst (takeDigits s2))
            else digitsValue (fst (takeDigits s1))
        | [] => 0%Z
        end
      else 0%Z
  | [] => 0%Z
  end.

(** The longest prefix of [s] that is a [StrUnsignedDecimalLiteral], as a
    Number of sign [neg]; [NaN] when no prefix is one. *)
Definition parseUnsigned (neg : bool) (s : jsstring) : Number :=
  if startsWith (str "Infinity") s then Infinity neg
  else
    let (ip, r1) := takeDigits s in
    let (fp, r2) :=
      match r1 with
      | c :: r1' => if c =? chr "." then takeDigits r1' else ([], r1)
      | [] => ([], r1)
      end in
    match ip ++ fp with
    | [] => NaN
    | ds =>
        decimalToNumber neg (digitsValue ds) (Z.of_nat (length ds))
          (parseExponent r2 - Z.of_nat (length fp))
    end.

Definition parseFloat (s : jsstring) : Number :=
  match trimStart s with
  | c :: t =>
      if c =? chr "-" then parseUnsigned true t
      else if c =? chr "+" then parseUnsigned false t
      else parseUnsigned false (c :: t)
  | [] => NaN
  end.



Local Close Scope N_scope.

(** ** Built-ins that depend on the host's Unicode tables and locale

    [toLowerCase] is [String.prototype.toLowerCase];
    [String_localeCompare a b options] is [a.localeCompare(b, undefined, options)]
    in the host's default locale, for the two options that the page
    passes. *)
Inductive Sensitivity := SensBase | SensAccent | SensCase | SensVariant.

Record CollatorOptions := {
  numeric : bool;
  sensitivity : Sensitivity
}.

Class Host := {
  toLowerCase : jsstring → jsstring;
  String_localeCompare : jsstring → jsstring → CollatorOptions → Number
}.

(** The page's call:
    [valA.localeCompare(valB, undefined, { numeric: true, sensitivity: 'base' })]. *)
Definition localeCompare `{Host} (valA valB : jsstring) : Number :=
  String_localeCompare valA valB {| numeric := true; sensitivity := SensBase |}.



(** ** [Array.prototype.sort]

    The language fixes the result of a sort only when the comparator is a
    consistent comparison function for the elements: the elements then come
    in the comparator's order, and those that compare equal keep the order
    they had (the sort is stable).  For any other comparator the order is
    left to the engine.  So the engine's sort is a parameter, and what the
    language requires of it is [Conforming]. *)
Section ArraySort.
Context {A : Type} (comparefn : A → A → Number).

(** The sorted sequence for a consistent comparator, computed by insertion:
    every element is placed behind the elements that follow it in the array
    and that the comparator puts strictly before it.  [SortCompare] reads a
    [NaN] result as [+0], so an element moves only on a result greater than
    zero. *)
Fixpoint insertSorted (x : A) (l : list A) : list A :=
  match l with
  | [] => [x]
  | y :: l' =>
      if Number_isPositive (comparefn x y) then y :: insertSorted x l'
      else x :: l
  end.

Definition stableSort (l : list A) : list A := foldr insertSorted [] l.

(** [a <C b], [a =C b] and [a >C b]. *)
Definition comesBefore (a b : A) : Prop :=
  Number_isNegative (comparefn a b) = true.

Definition comparesEqual (a b : A) : Prop :=
  Number_isNonZero (comparefn a b) = false.

Definition comesAfter (a b : A) : Prop :=
  Number_isPositive (comparefn a b) = true.

(** The comparator is a consistent comparison function for the elements of
    [l]: it never gives [NaN], comparing equal is reflexive, symmetric and
    transitive, and coming before and coming after are transitive. *)
Record consistentOn (l : list A) : Prop := {
  consistent_number :
    ∀ a b, a ∈ l → b ∈ l → isNaN (comparefn a b) = false;
  consistent_refl : ∀ a, a ∈ l → comparesEqual a a;
  consistent_sym :
    ∀ a b, a ∈ l → b ∈ l → comparesEqual a b → comparesEqual b a;
  consistent_equal :
    ∀ a b c, a ∈ l → b ∈ l → c ∈ l →
      comparesEqual a b → comparesEqual b c → comparesEqual a c;
  consistent_before :
    ∀ a b c, a ∈ l → b ∈ l → c ∈ l →
      comesBefore a b → comesBefore b c → comesBefore a c;
  consistent_after :
    ∀ a b c, a ∈ l → b ∈ l → c ∈ l →
      comesAfter a b → comesAfter b c → comesAfter a c
}.

(** The same, as a test to run on a concrete list. *)
Definition consistentOnb (l : list A) : bool :=
  let eq a b := negb (Number_isNonZero (comparefn a b)) in
  let lt a b := Number_isNegative (comparefn a b) in
  let gt a b := Number_isPositive (comparefn a b) in
  forallb (λ a,
    eq a a &&
    forallb (λ b,
      negb (isNaN (comparefn a b)) &&
      implb (eq a b) (eq b a) &&
      forallb (λ c,
        implb (eq a b && eq b c) (eq a c) &&
        implb (lt a b && lt b c) (lt a c) &&
        implb (gt a b && gt b c) (gt a c)) l) l) l.

(** The array is one strictly descending run: each element comes before
    the one in front of it. *)
Fixpoint descendingRun (l : list A) : bool :=
  match l with
  | x :: l' =>
      match l' with
      | y :: _ => Number_isNegative (comparefn y x) && descendingRun l'
      | [] => true
      end
  | [] => true
  end.

(** A sort that treats an array that is one strictly descending run as the
    merge sorts with run detection do (TimSort, the sort of V8): it
    reverses it.  Every other array it sorts by insertion. *)
Definition runSort (l : list A) : list A :=
  if descendingRun l then rev l else stableSort l.
End ArraySort.

Class SortEngine := {
  Array_sort : ∀ {A : Type}, (A → A → Number) → list A → list A
}.

(** What the language requires of every engine: the result holds the
    elements of the array, and for a consistent comparator it is the sorted
    sequence with equal elements in their original order. *)
Class Conforming (E : SortEngine) : Prop := {
  sort_permutes :
    ∀ {A : Type} (comparefn : A → A → Number) (l : list A),
      Array_sort comparefn l ≡ₚ l;
  sort_consistent :
    ∀ {A : Type} (comparefn : A → A → Number) (l : list A),
      consistentOn comparefn l → Array_sort comparefn l = stableSort comparefn l
}.

(** Two engines: one that sorts by insertion whatever the comparator, and
    one that reverses descending runs. *)
Definition insertionEngine : SortEngine := {| Array_sort := @stableSort |}.

Definition runEngine : SortEngine := {| Array_sort := @runSort |}.

(** [a] stands before [b] in [l]: the two, in this order, are a subsequence
    of [l]. *)
Definition precedes {A} (a b : A) (l : list A) : Prop := [a; b] `sublist_of` l.

(** ** Rows, filters and sort keys *)

Record DisplayRow := { data : list jsstring; originalIndex : nat }.

#[global] Instance DisplayRow_eq_dec : EqDecision DisplayRow.
Proof. solve_decision. Defined.

Inductive SortDir := asc | desc.

Record SortKey := { col : nat; dir : SortDir }.

Definition ROWS_PER_BATCH : nat := 100.

(** [row[col] || '']: an absent cell and an empty cell both read as the
    empty string. *)
Definition cellOr (row : list jsstring) (col : nat) : jsstring :=
  default [] (row !! col).

(** [originalRows.map((row, i) => ({ data: row, originalIndex: i }))]. *)
Definition indexRows (originalRows : list (list jsstring)) : list DisplayRow :=
  imap (λ i row, {| data := row; originalIndex := i |}) originalRows.

Section Engine.
Context `{Host} `{SortEngine}.

(** The [filters] object built from the filter inputs: the input of column
    [col] contributes its lower-cased, trimmed value when that is not
    empty. *)
Definition getFilters (inputs : list jsstring) : gmap nat jsstring :=
  foldl (λ filters '(col, text),
           let value := trim (toLowerCase text) in
           match value with
           | [] => filters
           | _ => <[col := value]> filters
           end)
        ∅ (imap (λ col text, (col, text)) inputs).

(** The inner loop over [Object.keys(filters)]: the row matches when no
    column breaks out of it. *)
Definition rowMatches (filters : gmap nat jsstring) (row : list jsstring) : bool :=
  forallb (λ '(col, value), includes (toLowerCase (cellOr row col)) value)
          (map_to_list filters).

(** The filter step: the loop that pushes the matching rows, or the plain
    map when no filter is set. *)
Definition filterRows (originalRows : list (list jsstring))
    (filters : gmap nat jsstring) : list DisplayRow :=
  if decide (length (map_to_list filters) = 0%nat) then indexRows originalRows
  else
    foldl (λ filtered '(i, row),
             if rowMatches filters row
             then filtered ++ [{| data := row; originalIndex := i |}]
             else filtered)
          [] (imap (λ i row, (i, row)) originalRows).

(** The rows the filter state lets through, as the specification words it:
    at every column that has a predicate, the lower-cased cell contains the
    predicate. *)
Definition passesFilters (filters : gmap nat jsstring) (r : DisplayRow) : Prop :=
  map_Forall (λ c value, includes (toLowerCase (cellOr (data r) c)) value = true)
             filters.

#[global] Instance passesFilters_dec filters r : Decision (passesFilters filters r).
Proof. unfold passesFilters. apply _. Defined.

(** One turn of the comparator's loop: the comparison on one sort key,
    before the direction is applied. *)
Definition compareKey (sort : SortKey) (a b : DisplayRow) : Number :=
  let valA := cellOr (data a) (col sort) in
  let valB := cellOr (data b) (col sort) in
  let numA := parseFloat valA in
  let numB := parseFloat valB in
  if negb (isNaN numA) && negb (isNaN numB) then Number_sub numA numB
  else localeCompare valA valB.

(** The result returned when a key's comparison is not zero. *)
Definition directed (sort : SortKey) (cmp : Number) : Number :=
  match dir sort with
  | asc => cmp
  | desc => Number_neg cmp
  end.

(** The comparator handed to [filtered.sort]. *)
Fixpoint comparator (sortStack : list SortKey) (a b : DisplayRow) : Number :=
  match sortStack with
  | [] => S754_zero false
  | sort :: rest =>
      let cmp := compareKey sort a b in
      if Number_isNonZero cmp then directed sort cmp
      else comparator rest a b
  end.

(** The sort step. *)
Definition sortRows (sortStack : list SortKey) (filtered : list DisplayRow)
    : list DisplayRow :=
  if (0 <? length sortStack)%nat then Array_sort (comparator sortStack) filtered
  else filtered.

(** Two rows tie on a key when the key's comparison is zero, and on a sort
    stack when they tie on each of its keys. *)
Definition tiesOnKey (a b : DisplayRow) (sort : SortKey) : Prop :=
  Number_isNonZero (compareKey sort a b) = false.

Definition tiesOn (sortStack : list SortKey) (a b : DisplayRow) : Prop :=
  Forall (tiesOnKey a b) sortStack.

End Engine.

(** ** The sort stack *)

(** [sortStack.findIndex(s => s.col === col)]; [None] stands for [-1]. *)
Fixpoint findIndex (c : nat) (sortStack : list SortKey) : option nat :=
  match sortStack with
  | [] => None
  | s :: rest => if decide (col s = c) then Some 0%nat else S <$> findIndex c rest
  end.

(** [if (sortStack.length > 3) sortStack.pop()]. *)
Definition limitStack (sortStack : list SortKey) : list SortKey :=
  if (3 <? length sortStack)%nat then removelast sortStack else sortStack.

(** The header-click handler's update of the sort stack. *)
Definition headerClick (c : nat) (sortStack : list SortKey) : list SortKey :=
  limitStack
    match findIndex c sortStack with
    | Some 0%nat =>
        match sortStack with
        | s0 :: rest =>
            match dir s0 with
            | asc => {| col := col s0; dir := desc |} :: rest
            | desc => rest
            end
        | [] => sortStack
        end
    | Some existingIndex =>
        match sortStack !! existingIndex with
        | Some item => {| col := col item; dir := asc |} :: delete existingIndex sortStack
        | None => sortStack
        end
    | None => {| col := c; dir := asc |} :: sortStack
    end.

(** The operations that change the sort stack: a click on the header of a
    column, and the clear-sort button. *)
Inductive SortOp := Click (c : nat) | ClearSort.

Definition applySortOp (sortStack : list SortKey) (op : SortOp) : list SortKey :=
  match op with
  | Click c => headerClick c sortStack
  | ClearSort => []
  end.

(** The stack after a sequence of operations, from the empty stack the page
    starts with. *)
Definition runSortOps (ops : list SortOp) : list SortKey :=
  foldl applySortOp [] ops.

(** The columns of the keys of a stack, in precedence order. *)
Definition stackCols (sortStack : list SortKey) : list nat := map col sortStack.

(** The two properties of the sort state: at most three keys, no column
    twice. *)
Definition stackOk (stack : list SortKey) : Prop :=
  length stack ≤ 3 ∧ NoDup (stackCols stack).

(** ** The page's state and the render window *)

Record View := {
  originalRows : list (list jsstring);
  filterInputs : list jsstring;       (* the value of each column's filter input *)
  sortStack : list SortKey;
  displayRows : list DisplayRow;
  visibleStartIndex : nat;
  visibleEndIndex : nat;
  tableBody : list DisplayRow;        (* the rows rendered in the table body *)
  onscroll : bool                     (* the scroll listener is installed *)
}.

Definition setWindow (visibleStart visibleEnd : nat) (v : View) : View :=
  {| originalRows := originalRows v; filterInputs := filterInputs v;
     sortStack := sortStack v; displayRows := displayRows v;
     visibleStartIndex := visibleStart; visibleEndIndex := visibleEnd;
     tableBody := tableBody v; onscroll := onscroll v |}.

Definition setDisplayRows (rows : list DisplayRow) (v : View) : View :=
  {| originalRows := originalRows v; filterInputs := filterInputs v;
     sortStack := sortStack v; displayRows := rows;
     visibleStartIndex := visibleStartIndex v; visibleEndIndex := visibleEndIndex v;
     tableBody := tableBody v; onscroll := onscroll v |}.

Definition setTableBody (rows : list DisplayRow) (scroll : bool) (v : View) : View :=
  {| originalRows := originalRows v; filterInputs := filterInputs v;
     sortStack := sortStack v; displayRows := displayRows v;
     visibleStartIndex := visibleStartIndex v; visibleEndIndex := visibleEndIndex v;
     tableBody := rows; onscroll := scroll |}.

Definition setSortStack (stack : list SortKey) (v : View) : View :=
  {| originalRows := originalRows v; filterInputs := filterInputs v;
     sortStack := stack; displayRows := displayRows v;
     visibleStartIndex := visibleStartIndex v; visibleEndIndex := visibleEndIndex v;
     tableBody := tableBody v; onscroll := onscroll v |}.

Definition setFilterInputs (inputs : list jsstring) (v : View) : View :=
  {| originalRows := originalRows v; filterInputs := inputs;
     sortStack := sortStack v; displayRows := displayRows v;
     visibleStartIndex := visibleStartIndex v; visibleEndIndex := visibleEndIndex v;
     tableBody := tableBody v; onscroll := onscroll v |}.

(** The rows a loop [for (i = from; i < to; i++)] reads from [rows]. *)
Definition rowsBetween (from to : nat) (rows : list DisplayRow) : list DisplayRow :=
  take (to - from) (drop from rows).

(** [renderTableBody]: replaces the table body by the visible rows and
    installs the scroll listener when there is more than one batch. *)
Definition renderTableBody (v : View) : View :=
  let totalRows := length (displayRows v) in
  let endIndex := visibleEndIndex v `min` totalRows in
  setTableBody (rowsBetween (visibleStartIndex v) endIndex (displayRows v))
    (if (ROWS_PER_BATCH <? totalRows)%nat then true else onscroll v) v.

(** [renderMoreRows]: appends the rows that became visible. *)
Definition renderMoreRows (v : View) : View :=
  let currentEnd := (length (tableBody v) + visibleStartIndex v)%nat in
  let newEnd := visibleEndIndex v `min` length (displayRows v) in
  setTableBody (tableBody v ++ rowsBetween currentEnd newEnd (displayRows v))
    (onscroll v) v.

(** The window's extension, run by the scroll timer near the bottom of the
    rendered rows. *)
Definition extend (v : View) : View :=
  if (visibleEndIndex v <? length (displayRows v))%nat then
    renderMoreRows
      (setWindow (visibleStartIndex v)
         ((visibleEndIndex v + ROWS_PER_BATCH) `min` length (displayRows v)) v)
  else v.

(** The scroll timer's callback; [nearBottom] is the layout's answer to
    [scrollTop + clientHeight >= scrollHeight - 200]. *)
Definition scrollTimer (nearBottom : bool) (v : View) : View :=
  if onscroll v && nearBottom then extend v else v.

(** A page whose script runs as it was written.  The page holds the rows
    and the column names as [JSON.stringify] writes them, inside its script
    element, and the variable's name as it is, in its heading.  A text of
    the payload that the HTML parser reads as the end of the script
    ([</script]) cuts the script short, and a name that opens an element
    can swallow it: the script then does not run, and no row is rendered.
    [JSON.stringify] writes no [<] of its own, so a name and a payload
    without [<] leave the script as it was written. *)
Definition scriptSafe (variableName : jsstring) (columns : list jsstring)
    (rows : list (list jsstring)) : Prop :=
  (LT_ ∉ variableName)
  ∧ Forall (λ text, LT_ ∉ text) columns
  ∧ Forall (Forall (λ text : jsstring, LT_ ∉ text)) rows.

(** The page as its script leaves it after loading, when the script runs
    (see [scriptSafe]). *)
Definition initialView (rows : list (list jsstring)) (ncol : nat) : View :=
  renderTableBody
    {| originalRows := rows; filterInputs := replicate ncol [];
       sortStack := []; displayRows := indexRows rows;
       visibleStartIndex := 0; visibleEndIndex := ROWS_PER_BATCH;
       tableBody := []; onscroll := false |}.

(** The render window as a pair, and what holds of it and of the rendered
    rows between events: the window starts at 0, the table body shows the
    window's rows, and the window's end is the first batch's or lies within
    the sequence. *)
Definition window (v : View) : nat * nat :=
  (visibleStartIndex v, visibleEndIndex v).

Definition windowOk (v : View) : Prop :=
  visibleStartIndex v = 0
  ∧ tableBody v = take (visibleEndIndex v) (displayRows v)
  ∧ (visibleEndIndex v = ROWS_PER_BATCH
     ∨ visibleEndIndex v ≤ length (displayRows v)).

Section Handlers.
Context `{Host} `{SortEngine}.

Definition applyFiltersAndSort (v : View) : View :=
  let v := setWindow 0 ROWS_PER_BATCH v in
  let filters := getFilters (filterInputs v) in
  let filtered := filterRows (originalRows v) filters in
  let filtered := sortRows (sortStack v) filtered in
  renderTableBody (setDisplayRows filtered v).

(** The clear-filters and clear-sort buttons. *)
Definition clearFiltersClick (v : View) : View :=
  applyFiltersAndSort (setFilterInputs (map (λ _, []) (filterInputs v)) v).

Definition clearSortClick (v : View) : View :=
  applyFiltersAndSort (setSortStack [] v).

(** Typing in the filter input of a column changes its value and starts the
    timer whose callback is [applyFiltersAndSort]. *)
Definition filterInput (c : nat) (text : jsstring) (v : View) : View :=
  setFilterInputs (<[c := text]> (filterInputs v)) v.

(** A click on a column header, outside its resize handle (the handler
    returns at once for a click on the handle).  With more than 5000 rows
    the recomputation is left to a timer: the second component says that it
    was scheduled, and [applyFiltersAndSort] is what the timer runs. *)
Definition sortHeaderClick (c : nat) (v : View) : View * bool :=
  let v := setSortStack (headerClick c (sortStack v)) v in
  if (5000 <? length (originalRows v))%nat then (v, true)
  else (applyFiltersAndSort v, false).

(** The events the page reacts to, timers included, and its reaction. *)
Inductive Event :=
  | EvScrollTimer (nearBottom : bool)
  | EvFilterInput (c : nat) (text : jsstring)
  | EvFilterTimer
  | EvClearFilters
  | EvClearSort
  | EvHeaderClick (c : nat)
  | EvSortTimer.

Definition react (v : View) (e : Event) : View :=
  match e with
  | EvScrollTimer nearBottom => scrollTimer nearBottom v
  | EvFilterInput c text => filterInput c text v
  | EvFilterTimer => applyFiltersAndSort v
  | EvClearFilters => clearFiltersClick v
  | EvClearSort => clearSortClick v
  | EvHeaderClick c => fst (sortHeaderClick c v)
  | EvSortTimer => applyFiltersAndSort v
  end.
End Handlers.

(** ** Column resizing *)

(** The inline [width], [min-width] and [max-width] of a cell, in pixels. *)
Record CellStyle := {
  width : option Z;
  minWidth : option Z;
  maxWidth : option Z
}.

(** The cells a resize can touch: the filter row's and the header row's cell
    of each column, and the data cells of each rendered body row. *)
Record TableCells := {
  filterRow : list CellStyle;
  headerRow : list CellStyle;
  bodyRows : list (list CellStyle)
}.

Record Drag := {
  isResizing : bool;
  currentCol : option nat;            (* [None] is the initial [null] *)
  startX : Z;
  startWidth : Z
}.

Definition noDrag : Drag :=
  {| isResizing := false; currentCol := None; startX := 0; startWidth := 0 |}.

(** [mousedown] on the handle of column [c] at [pageX]; [offsetWidth] is the
    rendered width of the column's header cell. *)
Definition mousedown (c : nat) (pageX offsetWidth : Z) (d : Drag) : Drag :=
  {| isResizing := true; currentCol := Some c; startX := pageX;
     startWidth := offsetWidth |}.

Definition resized (newWidth : Z) (header : bool) (old : CellStyle) : CellStyle :=
  {| width := Some newWidth; minWidth := Some newWidth;
     maxWidth := if header then maxWidth old else Some newWidth |}.

(** [mousemove] at [pageX].  The header cells are looked up with
    [nth-child(currentCol + 2)], the first child of a row being its
    row-number cell ([null + 2] is 2, the child of column 0); when no such
    cell exists, setting its style throws, which is the result [None].  The
    body cells are those that [tbody td:nth-child(currentCol + 2)] selects:
    a row without such a cell is left as it is.  Coordinates and widths are
    whole pixels. *)
Definition mousemove (pageX : Z) (d : Drag) (t : TableCells) : option TableCells :=
  if negb (isResizing d) then Some t
  else
    let diff := (pageX - startX d)%Z in
    let newWidth := Z.max 60 (startWidth d + diff) in
    let c := default 0%nat (currentCol d) in
    match filterRow t !! c, headerRow t !! c with
    | Some filterTh, Some headerTh =>
        Some {| filterRow := <[c := resized newWidth true filterTh]> (filterRow t);
                headerRow := <[c := resized newWidth true headerTh]> (headerRow t);
                bodyRows := map (λ cells, alter (resized newWidth false) c cells)
                                (bodyRows t) |}
    | _, _ => None
    end.

Definition mouseup (d : Drag) : Drag :=
  if isResizing d then
    {| isResizing := false; currentCol := currentCol d; startX := startX d;
       startWidth := startWidth d |}
  else d.

(** ** Loading: the error page and the choice of the page shown *)

(** The text of the error page up to its heading's first character. *)
Definition errorPageHead : jsstring := str "<!DOCTYPE html>
<html><head><style>
body { 
    font-family: var(--vscode-font-family); 
    padding: 40px; 
    color: var(--vscode-foreground); 
    background: var(--vscode-editor-background); 
}
.error { 
    background: var(--vscode-inputValidation-errorBackground); 
    border: 1px solid var(--vscode-inputValidation-errorBorder); 
    color: var(--vscode-inputValidation-errorForeground, var(--vscode-foreground));
    padding: 15px; 
    border-radius: 4px; 
}
button { 
    background: var(--vscode-button-background); 
    color: var(--vscode-button-foreground); 
    border: none; 
    padding: 8px 16px; 
    cursor: pointer; 
    border-radius: 2px; 
    margin-top: 15px; 
}
button:hover { background: var(--vscode-button-hoverBackground); }
</style></head><body>
<h2>".

(** [_getErrorHtml]. *)
Definition _getErrorHtml (variableName error : jsstring) : jsstring :=
  errorPageHead ++ [10060%N] ++ str " Error loading " ++ variableName
  ++ str "</h2>
<div class=" ++ [QUOT] ++ str "error" ++ [QUOT] ++ str ">"
  ++ _escapeHtml error
  ++ str "</div>
<button onclick=" ++ [QUOT] ++ str "location.reload()" ++ [QUOT]
  ++ str ">Try Again</button>
</body></html>".

(** What [_loadData] holds in [data] when its polling loop ends: [null], an
    object with an [error], or an object with the parsed table (its columns
    and rows; the two counts of the first line are left out). *)
Inductive LoadedData :=
  | NoData
  | ErrorData (error : jsstring)
  | TableData (columns : list jsstring) (rows : list (list jsstring)).

(** A string is truthy when it is not empty. *)
Definition truthy (s : jsstring) : bool :=
  match s with [] => false | _ => true end.

(** [s.split(sep)] for a one-character separator. *)
Fixpoint splitOn (sep : N) (s : jsstring) : list jsstring :=
  match s with
  | [] => [[]]
  | c :: s' =>
      if (c =? sep)%N then [] :: splitOn sep s'
      else
        match splitOn sep s' with
        | piece :: pieces => (c :: piece) :: pieces
        | [] => [[c]]
        end
  end.

(** [line.split(',').slice(1).join(',')]: what follows the first comma. *)
Fixpoint afterFirstComma (line : jsstring) : jsstring :=
  match line with
  | [] => []
  | c :: rest => if (c =? chr ",")%N then rest else afterFirstComma rest
  end.

(** The loop of [_parseCSVLine], from the position where [line] starts, with
    the loop's [inQuotes], [current] and [result]. *)
Fixpoint parseCSVFrom (line : jsstring) (inQuotes : bool) (current : jsstring)
    (result : list jsstring) : list jsstring :=
  match line with
  | [] => result ++ [current]
  | char :: rest =>
      if inQuotes then
        if (char =? QUOT)%N then
          match rest with
          | nextChar :: rest' =>
              if (nextChar =? QUOT)%N
              then parseCSVFrom rest' true (current ++ [QUOT]) result
              else parseCSVFrom rest false current result
          | [] => parseCSVFrom rest false current result
          end
        else parseCSVFrom rest true (current ++ [char]) result
      else if (char =? QUOT)%N then parseCSVFrom rest true current result
      else if (char =? chr ",")%N then parseCSVFrom rest false [] (result ++ [current])
      else parseCSVFrom rest false (current ++ [char]) result
  end.

Definition _parseCSVLine (line : jsstring) : list jsstring :=
  parseCSVFrom line false [] [].

(** What one reading of the temporary file leaves in [data]; [None] when
    the reading throws (the loop then polls again). *)
Definition readTempFile (content : jsstring) : option LoadedData :=
  let lines := splitOn (chr "010") content in
  let line0 := default [] (lines !! 0) in
  if startsWith (str "__ERROR__") line0 then
    Some (ErrorData (afterFirstComma line0))
  else if startsWith (str "__META__") line0 then
    match lines !! 1 with
    | Some header =>
        Some (TableData (_parseCSVLine header)
                (map _parseCSVLine
                     (filter (λ line, truthy (trim line) = true) (drop 2 lines))))
    | None => None
    end
  else Some NoData.

(** The page [_loadData] then assigns to the webview, once: the error page's
    text, or the data page or the manual page of the variable. *)
Inductive Page :=
  | ErrorPage (html : jsstring)
  | DataPage (variableName : jsstring) (columns : list jsstring)
      (rows : list (list jsstring))
  | ManualPage (variableName : jsstring).

Definition showLoaded (variableName : jsstring) (loaded : LoadedData) : Page :=
  match loaded with
  | ErrorData error =>
      if truthy error then ErrorPage (_getErrorHtml variableName error)
      else ManualPage variableName
  | TableData columns rows => DataPage variableName columns rows
  | NoData => ManualPage variableName
  end.

(** The data rows a page displays when it is shown. *)
Definition pageRows (p : Page) : list (list jsstring) :=
  match p with
  | DataPage _ _ rows => rows
  | _ => []
  end.

(** ** A host for the examples

    Lower-casing of the ASCII letters, and a comparison that only tells equal
    strings from different ones by their lengths and first code units.  The
    theorems below hold for every host; this one serves to run the
    definitions on concrete inputs. *)
Definition asciiLower (c : N) : N :=
  if ((65 <=? c) && (c <=? 90))%N then (c + 32)%N else c.

Definition simpleCompare (a b : jsstring) : Number :=
  match a, b with
  | [], [] => S754_zero false
  | [], _ :: _ => Number_ofZ (-1)
  | _ :: _, [] => Number_ofZ 1
  | x :: _, y :: _ => Number_ofZ (Z.of_N x - Z.of_N y)
  end.

Definition exampleHost : Host :=
  {| toLowerCase := map asciiLower;
     String_localeCompare := λ a b _, simpleCompare a b |}.





(** The payload of the specification's scenarios. *)
Definition people : list (list jsstring) :=
  [[str "Alice"; str "25"]; [str "Bob"; str "9"]; [str "Carl"; str "30"]].

(** * Further parts of the extension *)

(** ** The temporary file: how it is written and how it is polled *)

Definition LF : N := 10.
Definition COMMA : N := 44.

(** A text field as a writer that quotes its fields writes it: between
    double quotes, with each double quote of the text doubled. *)
Definition quoteField (text : jsstring) : jsstring :=
  [QUOT] ++ replaceAll QUOT [QUOT; QUOT] text ++ [QUOT].

(** A cell as it is written: a text quoted, a missing value ([None]) as
    nothing. *)
Definition writeCell (cell : option jsstring) : jsstring :=
  match cell with
  | Some text => quoteField text
  | None => []
  end.

(** [pieces.join(sep)]. *)
Fixpoint joinWith (sep : jsstring) (pieces : list jsstring) : jsstring :=
  match pieces with
  | [] => []
  | [piece] => piece
  | piece :: rest => piece ++ sep ++ joinWith sep rest
  end.

(** A line of cells. *)
Definition csvLine (cells : list (option jsstring)) : jsstring :=
  joinWith [COMMA] (map writeCell cells).

(** The file the reader expects for a table: the line of the marker, the
    line of the column names, and one line for each row. *)
Definition tableFile (metaLine : jsstring) (columns : list (option jsstring))
    (rows : list (list (option jsstring))) : jsstring :=
  metaLine ++ [LF] ++ csvLine columns ++ [LF]
  ++ flat_map (λ row, csvLine row ++ [LF]) rows.

(** A text without line feed, and cells whose texts have none. *)
Definition noLF (s : jsstring) : Prop := Forall (λ c, c ≠ 10%N) s.

Definition cellsNoLF (cells : list (option jsstring)) : Prop :=
  Forall (λ cell, noLF (default [] cell)) cells.

(** What one poll finds: no file; a file whose reading throws; or the text
    of the file, with whether its deletion succeeds. *)
Inductive Poll :=
  | NoFile
  | ReadThrows
  | FileText (content : jsstring) (unlinked : bool).

Definition maxWait : N := 60000.
Definition pollInterval : N := 200.

(** The assignments to [data] in one reading: the two marked kinds of file
    assign it, any other file leaves it as it is. *)
Definition assignData (data loaded : LoadedData) : LoadedData :=
  match loaded with
  | NoData => data
  | _ => loaded
  end.

(** The polling loop of [_loadData], from poll number [k] with [waited]
    milliseconds gone and the current [data]; [disk k] is what poll [k]
    finds.  The result is the final [data] and the poll at which the loop
    was left by [break], if it was.  Whatever throws inside [try] is caught
    and the loop goes on.  [fuel] bounds the number of turns. *)
Fixpoint pollFrom (fuel : nat) (disk : nat → Poll) (k : nat) (waited : N)
    (data : LoadedData) : LoadedData * option nat :=
  match fuel with
  | O => (data, None)
  | S fuel' =>
      if (waited <? maxWait)%N then
        let waited := (waited + pollInterval)%N in
        match disk k with
        | NoFile => pollFrom fuel' disk (S k) waited data
        | ReadThrows => pollFrom fuel' disk (S k) waited data
        | FileText content unlinked =>
            match readTempFile content with
            | Some loaded =>
                let data := assignData data loaded in
                if unlinked then (data, Some k)
                else pollFrom fuel' disk (S k) waited data
            | None => pollFrom fuel' disk (S k) waited data
            end
        end
      else (data, None)
  end.

(** The loop from its start; 301 turns are more than the waiting time
    allows. *)
Definition pollData (disk : nat → Poll) : LoadedData * option nat :=
  pollFrom 301 disk 0 0 NoData.

(** A poll that changes nothing: no file, or a file whose reading throws
    before [data] is assigned. *)
Definition pollIdle (p : Poll) : Prop :=
  match p with
  | NoFile | ReadThrows => True
  | FileText content _ => readTempFile content = None
  end.

(** The workbench as the extension's calls find it: whether the runtime API
    is there, and whether each of the calls resolves: the runtime's
    [executeCode], the console's command, the internal console command and
    the writing of the clipboard. *)
Record Workbench := {
  hasRuntime : bool;
  runtimeResolves : bool;
  consoleResolves : bool;
  internalResolves : bool;
  clipboardResolves : bool
}.

(** [_loadData] after the loading page: the R code is run by the first way
    that works, the file is polled, and the page is chosen. *)
Definition _loadData (w : Workbench) (disk : nat → Poll)
    (variableName : jsstring) : Page :=
  let executed := false in
  let executed :=
    if hasRuntime w then (if runtimeResolves w then true else executed)
    else executed in
  let executed :=
    if negb executed then (if consoleResolves w then true else executed)
    else executed in
  if negb executed then ManualPage variableName
  else showLoaded variableName (fst (pollData disk)).

(** A workbench without the runtime API, whose console command works. *)
Definition consoleOnly : Workbench :=
  {| hasRuntime := false; runtimeResolves := false; consoleResolves := true;
     internalResolves := false; clipboardResolves := true |}.

(** ** Regular expressions

    The fragment of the regular expressions that the extension writes or
    builds: characters, [.], [\s], sequence, alternative and repetition.
    Anchors are rendered by the choice of the matching function below. *)

(** [LineTerminator]: what [.] does not match without the flag [s]. *)
Definition isLineTerminator (c : N) : bool :=
  ((c =? 10) || (c =? 13) || (c =? 8232) || (c =? 8233))%N.

(** [Canonicalize] under the flag [i] (without [u]), as far as a comparison
    with an ASCII character goes: the ASCII letters go to their capitals,
    and no other code unit goes to an ASCII one. *)
Definition canonicalize (c : N) : N :=
  if ((97 <=? c) && (c <=? 122))%N then (c - 32)%N else c.

Inductive CharSet :=
  | Lit (c : N)
  | LitI (c : N)
  | Dot
  | DotAll
  | Space.

Definition inSet (cs : CharSet) (d : N) : bool :=
  match cs with
  | Lit c => (d =? c)%N
  | LitI c => (canonicalize d =? canonicalize c)%N
  | Dot => negb (isLineTerminator d)
  | DotAll => true
  | Space => isWhiteSpace d
  end.

Inductive Regex :=
  | Never
  | Eps
  | Chr (cs : CharSet)
  | Seq (r1 r2 : Regex)
  | Alt (r1 r2 : Regex)
  | Star (r : Regex).

(** Whether the expression matches the empty string. *)
Fixpoint nullable (r : Regex) : bool :=
  match r with
  | Never => false
  | Eps => true
  | Chr _ => false
  | Seq r1 r2 => nullable r1 && nullable r2
  | Alt r1 r2 => nullable r1 || nullable r2
  | Star _ => true
  end.

(** What is left of the expression to match once [c] is read. *)
Fixpoint deriv (c : N) (r : Regex) : Regex :=
  match r with
  | Never => Never
  | Eps => Never
  | Chr cs => if inSet cs c then Eps else Never
  | Seq r1 r2 =>
      if nullable r1 then Alt (Seq (deriv c r1) r2) (deriv c r2)
      else Seq (deriv c r1) r2
  | Alt r1 r2 => Alt (deriv c r1) (deriv c r2)
  | Star r1 => Seq (deriv c r1) (Star r1)
  end.

(** [/^r$/.test(s)]: the whole of [s] matches. *)
Fixpoint fullMatch (r : Regex) (s : jsstring) : bool :=
  match s with
  | [] => nullable r
  | c :: s' => fullMatch (deriv c r) s'
  end.

(** [/^r/.test(s)]: a match starts at the start of [s]. *)
Fixpoint matchesAt (r : Regex) (s : jsstring) : bool :=
  nullable r ||
  match s with
  | [] => false
  | c :: s' => matchesAt (deriv c r) s'
  end.

(** [/r/.test(s)]: a match starts somewhere in [s]. *)
Fixpoint test (r : Regex) (s : jsstring) : bool :=
  matchesAt r s ||
  match s with
  | [] => false
  | _ :: s' => test r s'
  end.

(** What an expression matches, as a relation. *)
Inductive Matches : Regex → jsstring → Prop :=
  | MEps : Matches Eps []
  | MChr cs c : inSet cs c = true → Matches (Chr cs) [c]
  | MSeq r1 r2 s1 s2 :
      Matches r1 s1 → Matches r2 s2 → Matches (Seq r1 r2) (s1 ++ s2)
  | MAltL r1 r2 s : Matches r1 s → Matches (Alt r1 r2) s
  | MAltR r1 r2 s : Matches r2 s → Matches (Alt r1 r2) s
  | MStar0 r : Matches (Star r) []
  | MStarS r s1 s2 :
      Matches r s1 → Matches (Star r) s2 → Matches (Star r) (s1 ++ s2).

(** One character of a pattern's source that is a letter, a digit, [_] or
    [.]: the dot stands for any character (any but a line terminator
    without the flag [s]), the others for themselves (up to case under the
    flag [i]). *)
Definition patternSet (ignoreCase dotAll : bool) (c : N) : CharSet :=
  if (c =? chr ".")%N then (if dotAll then DotAll else Dot)
  else if ignoreCase then LitI c else Lit c.

Definition patternText (ignoreCase dotAll : bool) (source : jsstring) : Regex :=
  foldr (λ c r, Seq (Chr (patternSet ignoreCase dotAll c)) r) Eps source.

(** The texts that a pattern's source matches: character by character. *)
Definition sameText (ignoreCase dotAll : bool) (source text : jsstring) : Prop :=
  Forall2 (λ c d, inSet (patternSet ignoreCase dotAll c) d = true) source text.

(** A text that stands for itself. *)
Definition literal (text : jsstring) : Regex :=
  foldr (λ c r, Seq (Chr (Lit c)) r) Eps text.

(** [r{n,}]. *)
Definition atLeast (n : nat) (r : Regex) : Regex :=
  Nat.iter n (Seq r) (Star r).

(** The characters of the words that the providers take from the document,
    [[a-zA-Z0-9_.]]. *)
Definition isWordChar (c : N) : bool :=
  (((97 <=? c) && (c <=? 122)) || ((65 <=? c) && (c <=? 90))
   || ((48 <=? c) && (c <=? 57)) || (c =? chr "_") || (c =? chr "."))%N.

(** ** [mightBeTibble] *)

Definition TIBBLE_CREATION_PATTERNS : list jsstring :=
  [str "tibble"; str "tribble"; str "data.frame"; str "data_frame";
   str "read_csv"; str "read_tsv"; str "read_delim"; str "read_excel";
   str "read.csv"; str "read.table"; str "read.delim";
   str "as_tibble"; str "as.data.frame";
   str "mutate"; str "select"; str "filter"; str "arrange";
   str "summarize"; str "summarise";
   str "group_by"; str "ungroup"; str "slice"; str "distinct";
   str "left_join"; str "right_join"; str "inner_join"; str "full_join";
   str "anti_join"; str "semi_join";
   str "bind_rows"; str "bind_cols";
   str "pivot_longer"; str "pivot_wider"; str "spread"; str "gather";
   str "fread"; str "setDT"; str "as.data.table"].

(** The expression built for one pattern, with the flag [i]:
    [varName\s*(<-|=).*pattern]. *)
Definition creationRegex (varName pattern : jsstring) : Regex :=
  Seq (patternText true false varName)
    (Seq (Star (Chr Space))
       (Seq (Alt (literal (str "<-")) (literal (str "=")))
          (Seq (Star (Chr Dot)) (patternText true false pattern)))).

(** The expression for the pipes, with the flag [s]:
    [varName\s*<-.*(%>%|\|>)]. *)
Definition pipeRegex (varName : jsstring) : Regex :=
  Seq (patternText false true varName)
    (Seq (Star (Chr Space))
       (Seq (literal (str "<-"))
          (Seq (Star (Chr DotAll))
             (Alt (literal (str "%>%")) (literal (str "|>")))))).

(** [mightBeTibble], of the document's text and of a name made of word
    characters, as the providers pass it. *)
Definition mightBeTibble (text varName : jsstring) : bool :=
  if existsb (λ pattern, test (creationRegex varName pattern) text)
       TIBBLE_CREATION_PATTERNS
  then true
  else if test (pipeRegex varName) text then true
  else false.

(** What the expression for a pattern finds in a text, written out: a text
    that the name matches, white space, an assignment sign, anything
    without a line terminator, and a text that the pattern matches. *)
Definition creationMatch (varName pattern text : jsstring) : Prop :=
  ∃ before name spaces op rest found after,
    text = before ++ name ++ spaces ++ op ++ rest ++ found ++ after
    ∧ sameText true false varName name
    ∧ Forall (λ c, isWhiteSpace c = true) spaces
    ∧ (op = str "<-" ∨ op = str "=")
    ∧ Forall (λ c, isLineTerminator c = false) rest
    ∧ sameText true false pattern found.

(** The same for the pipes: a text that the name matches, white space, the
    arrow, anything at all, and a pipe. *)
Definition pipeMatch (varName text : jsstring) : Prop :=
  ∃ before name spaces rest pipe after,
    text = before ++ name ++ spaces ++ str "<-" ++ rest ++ pipe ++ after
    ∧ sameText false true varName name
    ∧ Forall (λ c, isWhiteSpace c = true) spaces
    ∧ (pipe = str "%>%" ∨ pipe = str "|>").

(** ** The folding of code sections *)

(** [/^#.*-{4,}\s*$/]. *)
Definition endsWithDashesRegex : Regex :=
  Seq (literal (str "#"))
    (Seq (Star (Chr Dot))
       (Seq (atLeast 4 (Chr (Lit (chr "-")))) (Star (Chr Space)))).

(** [/^#{4,}/]. *)
Definition startsWithHashesRegex : Regex :=
  atLeast 4 (Chr (Lit (chr "#"))).

(** The test of a line for a section header. *)
Definition isSectionHeader (lineText : jsstring) : bool :=
  let endsWithDashes := fullMatch endsWithDashesRegex lineText in
  let startsWithHashes := matchesAt startsWithHashesRegex (trim lineText) in
  endsWithDashes || startsWithHashes.

Record FoldingRange := {
  startLine : nat;
  endLine : nat
}.

(** The first loop: the numbers of the header lines, from line [i] on. *)
Fixpoint sectionStartsFrom (i : nat) (lines : list jsstring) : list nat :=
  match lines with
  | [] => []
  | lineText :: rest =>
      if isSectionHeader lineText then i :: sectionStartsFrom (S i) rest
      else sectionStartsFrom (S i) rest
  end.

(** The second loop: a range from each header to the line before the next
    header, or to the last line of the document, when that is further down
    than the header. *)
Fixpoint rangesOf (sectionStarts : list nat) (lineCount : nat)
    : list FoldingRange :=
  match sectionStarts with
  | [] => []
  | startLine :: rest =>
      let endLine :=
        match rest with
        | next :: _ => next - 1
        | [] => lineCount - 1
        end in
      if startLine <? endLine
      then {| startLine := startLine; endLine := endLine |} :: rangesOf rest lineCount
      else rangesOf rest lineCount
  end.

(** [provideFoldingRanges], of the lines of the document. *)
Definition provideFoldingRanges (lines : list jsstring) : list FoldingRange :=
  rangesOf (sectionStartsFrom 0 lines) (length lines).

(** Line [i] of the document is a section header. *)
Definition headerAt (lines : list jsstring) (i : nat) : Prop :=
  ∃ lineText, lines !! i = Some lineText ∧ isSectionHeader lineText = true.

(** ** [openInDataExplorer] *)

(** What the function does to the workbench, call by call. *)
Inductive Effect :=
  | RuntimeExecuteCode (languageId code : jsstring) (focus allowIncomplete : bool)
  | ConsoleExecuteCode (code languageId : jsstring) (focus : bool)
  | ExecuteCodeInConsole (languageId : jsstring)
  | ClipboardWriteText (text : jsstring)
  | ShowInformationMessage (message : jsstring)
  | ShowWarningMessage (message : jsstring)
  | ConsoleLog (message : jsstring).

Definition viewCode (variableName : jsstring) : jsstring :=
  str "View(" ++ variableName ++ str ")".

Definition openingMessage (variableName : jsstring) : jsstring :=
  str "Opening " ++ [QUOT] ++ variableName ++ [QUOT] ++ str " in Data Explorer".

Definition copiedMessage (variableName : jsstring) : jsstring :=
  str "Copied " ++ [QUOT] ++ viewCode variableName ++ [QUOT]
  ++ str " to clipboard. Paste in R console to view.".

(** [openInDataExplorer]: the calls it makes, in their order, and whether
    its promise resolves. *)
Definition openInDataExplorer (w : Workbench) (variableName : jsstring)
    : list Effect * bool :=
  let code := viewCode variableName in
  let calls :=
    if hasRuntime w then [RuntimeExecuteCode (str "r") code true false] else [] in
  if hasRuntime w && runtimeResolves w then
    (calls ++ [ShowInformationMessage (openingMessage variableName)], true)
  else
    let calls :=
      if hasRuntime w
      then calls ++ [ConsoleLog (str "positron.runtime.executeCode failed:")]
      else calls in
    let calls := calls ++ [ConsoleExecuteCode code (str "r") true] in
    if consoleResolves w then
      (calls ++ [ShowInformationMessage (openingMessage variableName)], true)
    else
      let calls :=
        calls ++ [ConsoleLog
                    (str "workbench.action.positronConsole.executeCode failed:")] in
      let calls := calls ++ [ExecuteCodeInConsole (str "r")] in
      let calls :=
        if internalResolves w then calls
        else calls ++ [ConsoleLog (str "_executeCodeInConsole failed:")] in
      let calls := calls ++ [ClipboardWriteText code] in
      if clipboardResolves w then
        (calls ++ [ShowWarningMessage (copiedMessage variableName)], true)
      else (calls, false).

(** The calls that hand a code to R, and those that tell the user
    something. *)
Definition executedCode (e : Effect) : option jsstring :=
  match e with
  | RuntimeExecuteCode _ code _ _ => Some code
  | ConsoleExecuteCode code _ _ => Some code
  | _ => None
  end.

Definition isMessage (e : Effect) : bool :=
  match e with
  | ShowInformationMessage _ | ShowWarningMessage _ => true
  | _ => false
  end.

(** ** The rows shown and the payload *)

(** Each shown row is the payload's row at its original index, and no
    payload row is shown twice. *)
Definition rowsOk (rows : list (list jsstring)) (shown : list DisplayRow) : Prop :=
  (∀ r, r ∈ shown → rows !! originalIndex r = Some (data r))
  ∧ NoDup (map originalIndex shown).

(** What holds of the scroll state between events: the window is in order,
    its end is not before the first batch's, and the scroll listener is
    there when the rows do not fit in one batch. *)
Definition scrollOk (v : View) : Prop :=
  windowOk v
  ∧ ROWS_PER_BATCH ≤ visibleEndIndex v
  ∧ (ROWS_PER_BATCH < length (displayRows v) → onscroll v = true).

(** Reads the fields of a state built by the setters, and nothing else. *)
Ltac view_fields :=
  unfold setTableBody, setDisplayRows, setWindow, setSortStack, setFilterInputs;
  cbn [originalRows filterInputs sortStack displayRows visibleStartIndex
       visibleEndIndex tableBody onscroll fst snd].

(** * Properties *)

(** ** [_escapeHtml] *)

Lemma replaceAll_app c rep s1 s2 :
  replaceAll c rep (s1 ++ s2) = replaceAll c rep s1 ++ replaceAll c rep s2.
Proof.
  induction s1 as [|x s1 IH]; simpl; [done|].
  by rewrite IH, (assoc_L (++)).
Qed.

Lemma replaceAll_other c rep x :
  x ≠ c → replaceAll c rep [x] = [x].
Proof.
  intros Hne. simpl. destruct (N.eqb_spec x c); [done|]. done.
Qed.

(** The chain of replacements acts on each code unit on its own. *)
Lemma _escapeHtml_cons x text :
  _escapeHtml (x :: text) = escapeUnit x ++ _escapeHtml text.
Proof.
  unfold _escapeHtml, escapeUnit.
  change (x :: text) with ([x] ++ text).
  rewrite !replaceAll_app.
  f_equal.
  destruct (N.eqb_spec x AMP) as [->|Hamp]; [reflexivity|].
  rewrite (replaceAll_other AMP) by done.
  destruct (N.eqb_spec x LT_) as [->|Hlt]; [reflexivity|].
  rewrite (replaceAll_other LT_) by done.
  destruct (N.eqb_spec x GT_) as [->|Hgt]; [reflexivity|].
  rewrite (replaceAll_other GT_) by done.
  destruct (N.eqb_spec x QUOT) as [->|Hquot]; [reflexivity|].
  rewrite (replaceAll_other QUOT) by done.
  destruct (N.eqb_spec x APOS) as [->|Hapos]; [reflexivity|].
  by rewrite (replaceAll_other APOS).
Qed.

Lemma _escapeHtml_flat_map text :
  _escapeHtml text = flat_map escapeUnit text.
Proof.
  induction text as [|x text IH]; [reflexivity|].
  by rewrite _escapeHtml_cons, IH.
Qed.

Lemma escapeUnit_no_markup x :
  Forall (λ c, ¬ isMarkup c) (escapeUnit x).
Proof.
  unfold escapeUnit, isMarkup.
  repeat (match goal with
          | |- context [N.eqb x ?c] => destruct (N.eqb_spec x c) as [?|?]
          end;
          [repeat constructor; intros [?|[?|[?|?]]]; discriminate|]).
  repeat constructor. intros [?|[?|[?|?]]]; done.
Qed.

(** A unit's image is an entity, whose only ampersand is its first code
    unit, or the unit itself, which is then no ampersand. *)
Lemma escapeUnit_shape x :
  (escapeUnit x ∈ entities ∧ ∀ i, escapeUnit x !! i = Some AMP → i = 0%nat)
  ∨ (escapeUnit x = [x] ∧ x ≠ AMP).
Proof.
  unfold escapeUnit.
  repeat (match goal with
          | |- context [N.eqb x ?c] => destruct (N.eqb_spec x c) as [?|?]
          end;
          [left; split;
           [unfold entities; set_solver
           |intros i Hi; do 8 (destruct i as [|i]; [done || discriminate|]);
            discriminate]|]).
  by right.
Qed.

(** C10: the escaped text holds none of [<], [>], the double quote and the
    single quote, and every ampersand in it is the first code unit of one of
    the five entities [&amp;], [&lt;], [&gt;], [&quot;], [&#039;]: text put
    into the page through [_escapeHtml] brings no markup with it. *)
Theorem escapeHtml_output_is_text (text : jsstring) :
  Forall (λ c, ¬ isMarkup c) (_escapeHtml text)
  ∧ ∀ i, _escapeHtml text !! i = Some AMP → startsEntity (_escapeHtml text) i.
Proof.
  induction text as [|x text [IHm IHa]].
  - split; [constructor|]. intros i Hi. destruct i; discriminate.
  - rewrite _escapeHtml_cons. split.
    + apply Forall_app. split; [apply escapeUnit_no_markup|done].
    + intros i Hi. unfold startsEntity.
      destruct (decide (i < length (escapeUnit x))) as [Hlt|Hge].
      * rewrite lookup_app_l in Hi by done.
        destruct (escapeUnit_shape x) as [[Hent Hzero]|[Heq Hne]].
        -- apply Hzero in Hi as ->. exists (escapeUnit x).
           split; [done|]. rewrite drop_0. by apply prefix_app_r.
        -- rewrite Heq in Hi. destruct i; simpl in Hi; [congruence|].
           destruct i; discriminate.
      * rewrite lookup_app_r in Hi by lia.
        destruct (IHa _ Hi) as (ent & Hent & Hpre).
        exists ent. split; [done|].
        rewrite drop_app_ge by lia. done.
Qed.

(** ** The filter step *)

Lemma filter_all {A} (P : A → Prop) `{!∀ x, Decision (P x)} (l : list A) :
  Forall P l → filter P l = l.
Proof.
  induction 1 as [|x l Hx _ IH]; [done|].
  by rewrite filter_cons_True, IH.
Qed.

Section FilterStep.
Context `{Host}.

Lemma rowMatches_spec filters i row :
  rowMatches filters row = true
  ↔ passesFilters filters {| data := row; originalIndex := i |}.
Proof.
  unfold rowMatches, passesFilters.
  rewrite forallb_forall, map_Forall_to_list, Forall_forall. simpl.
  split; intros Hall [c value] Hin.
  - apply (Hall (c, value)). by apply list_elem_of_In.
  - apply (Hall (c, value)). by apply list_elem_of_In.
Qed.

(** The loop that pushes the matching rows computes a filter. *)
Lemma filter_loop filters (l : list (nat * list jsstring)) (acc : list DisplayRow) :
  foldl (λ filtered '(i, row),
           if rowMatches filters row
           then filtered ++ [{| data := row; originalIndex := i |}]
           else filtered) acc l
  = acc ++ filter (passesFilters filters)
             (map (λ '(i, row), {| data := row; originalIndex := i |}) l).
Proof.
  revert acc. induction l as [|[i row] l IH]; intros acc; simpl.
  - by rewrite filter_nil, app_nil_r.
  - rewrite IH. destruct (rowMatches filters row) eqn:Hm.
    + rewrite filter_cons_True by (by apply rowMatches_spec).
      by rewrite <- (assoc_L (++)).
    + rewrite filter_cons_False; [done|].
      intros Hp. apply rowMatches_spec in Hp. congruence.
Qed.

Lemma indexRows_pairs (rows : list (list jsstring)) :
  map (λ '(i, row), {| data := row; originalIndex := i |})
      (imap (λ i row, (i, row)) rows)
  = indexRows rows.
Proof.
  unfold indexRows. change map with (@fmap list _). by rewrite fmap_imap.
Qed.

Lemma filterRows_spec (rows : list (list jsstring)) (filters : gmap nat jsstring) :
  filterRows rows filters = filter (passesFilters filters) (indexRows rows).
Proof.
  unfold filterRows. case_decide as Hlen.
  - apply length_zero_iff_nil, map_to_list_empty_iff in Hlen as ->.
    symmetry. apply filter_all. apply Forall_forall.
    intros r _. unfold passesFilters. apply map_Forall_empty.
  - by rewrite filter_loop, indexRows_pairs.
Qed.


End FilterStep.

(** ** The comparator *)

Section Comparator.
Context `{Host}.

Lemma comparator_ties sortStack a b :
  tiesOn sortStack a b → comparator sortStack a b = S754_zero false.
Proof.
  induction 1 as [|sort rest Htie _ IH]; [done|].
  simpl. unfold tiesOnKey in Htie. by rewrite Htie.
Qed.



End Comparator.

(** ** The sort *)

Section ArraySortFacts.
Context {A : Type} (comparefn : A → A → Number).

(** Inserting an element splits the list it is inserted into. *)
Lemma insertSorted_split (x : A) (l : list A) :
  ∃ l1 l2, l = l1 ++ l2 ∧ insertSorted comparefn x l = l1 ++ x :: l2.
Proof.
  induction l as [|y l (l1 & l2 & Hl & Hins)]; simpl.
  - by exists [], [].
  - destruct (Number_isPositive (comparefn x y)).
    + exists (y :: l1), l2. simpl. by rewrite Hins, Hl at 1.
    + by exists [], (y :: l).
Qed.

Lemma insertSorted_Permutation (x : A) (l : list A) :
  insertSorted comparefn x l ≡ₚ x :: l.
Proof.
  destruct (insertSorted_split x l) as (l1 & l2 & -> & ->).
  by rewrite Permutation_middle.
Qed.

(** Sorting rearranges: it neither drops nor repeats an element. *)
Lemma stableSort_Permutation (l : list A) :
  stableSort comparefn l ≡ₚ l.
Proof.
  induction l as [|x l IH]; [done|].
  change (stableSort comparefn (x :: l))
    with (insertSorted comparefn x (stableSort comparefn l)).
  by rewrite insertSorted_Permutation, IH.
Qed.

(** An insertion keeps the order of the elements that were there. *)
Lemma insertSorted_precedes (x a b : A) (l : list A) :
  precedes a b l → precedes a b (insertSorted comparefn x l).
Proof.
  unfold precedes. intros Hab.
  destruct (insertSorted_split x l) as (l1 & l2 & -> & ->).
  etrans; [exact Hab|].
  apply sublist_app; [done|]. by apply sublist_cons.
Qed.

(** The inserted element stays in front of every element that the
    comparator does not put strictly before it. *)
Lemma insertSorted_front (x y : A) (l : list A) :
  y ∈ l → Number_isPositive (comparefn x y) = false →
  precedes x y (insertSorted comparefn x l).
Proof.
  unfold precedes. intros Hy Hxy.
  induction l as [|z l IH]; [by apply elem_of_nil in Hy|].
  simpl. destruct (Number_isPositive (comparefn x z)) eqn:Hxz.
  - apply sublist_cons, IH.
    apply elem_of_cons in Hy as [->|Hy]; [congruence|done].
  - apply sublist_skip. by apply singleton_sublist_l.
Qed.

(** The sort is stable: two elements that the comparator does not put in
    the opposite order keep theirs. *)
Lemma stableSort_stable (a b : A) (l : list A) :
  precedes a b l → Number_isPositive (comparefn a b) = false →
  precedes a b (stableSort comparefn l).
Proof.
  intros Hab Htie. induction l as [|x l IH].
  - unfold precedes in Hab. by apply sublist_nil_r in Hab.
  - change (stableSort comparefn (x :: l))
      with (insertSorted comparefn x (stableSort comparefn l)).
    unfold precedes in Hab.
    apply sublist_cons_r in Hab as [Hab|(l' & Heq & Hb)].
    + by apply insertSorted_precedes, IH.
    + injection Heq as <- <-.
      apply insertSorted_front; [|done].
      rewrite stableSort_Permutation. by apply singleton_sublist_l.
Qed.

(** When the comparator is consistent (what it puts strictly before is never
    put strictly after, and "not strictly after" is transitive), the result
    is in order: no element is followed by one that the comparator puts
    strictly before it. *)
Lemma stableSort_sorted (l : list A) :
  (∀ x y, Number_isPositive (comparefn x y) = true →
          Number_isPositive (comparefn y x) = false) →
  (∀ x y z, Number_isPositive (comparefn x y) = false →
            Number_isPositive (comparefn y z) = false →
            Number_isPositive (comparefn x z) = false) →
  StronglySorted (λ a b, Number_isPositive (comparefn a b) = false)
                 (stableSort comparefn l).
Proof.
  intros Hasym Htrans. induction l as [|x l IH]; [constructor|].
  change (stableSort comparefn (x :: l))
    with (insertSorted comparefn x (stableSort comparefn l)).
  induction IH as [|y l' Hsorted IH' Hall]; simpl; [repeat constructor|].
  destruct (Number_isPositive (comparefn x y)) eqn:Hxy.
  - constructor; [done|].
    rewrite insertSorted_Permutation. constructor; [by apply Hasym|done].
  - constructor; [by constructor|].
    constructor; [done|].
    eapply Forall_impl; [exact Hall|]. intros w Hw. by eapply Htrans.
Qed.
End ArraySortFacts.

(** *** Numbers and their signs *)

Lemma Number_sign_cases (x : Number) :
  isNaN x = false →
  (Number_isNegative x = true ∧ Number_isNonZero x = true
   ∧ Number_isPositive x = false)
  ∨ (Number_isNegative x = false ∧ Number_isNonZero x = false
     ∧ Number_isPositive x = false)
  ∨ (Number_isNegative x = false ∧ Number_isNonZero x = true
     ∧ Number_isPositive x = true).
Proof.
  destruct x as [s|s| |s m e]; [..|done|]; destruct s; intros _; auto.
Qed.


(** *** Consistent comparators *)

Section Consistent.
Context {A : Type} (comparefn : A → A → Number).

Lemma consistentOnb_spec (l : list A) :
  consistentOnb comparefn l = true → consistentOn comparefn l.
Proof.
  unfold consistentOnb. intros Hall.
  assert (Hthree : ∀ a b c, a ∈ l → b ∈ l → c ∈ l →
    negb (Number_isNonZero (comparefn a a)) = true
    ∧ negb (isNaN (comparefn a b)) = true
    ∧ implb (negb (Number_isNonZero (comparefn a b)))
            (negb (Number_isNonZero (comparefn b a))) = true
    ∧ implb (negb (Number_isNonZero (comparefn a b))
             && negb (Number_isNonZero (comparefn b c)))
            (negb (Number_isNonZero (comparefn a c))) = true
    ∧ implb (Number_isNegative (comparefn a b) && Number_isNegative (comparefn b c))
            (Number_isNegative (comparefn a c)) = true
    ∧ implb (Number_isPositive (comparefn a b) && Number_isPositive (comparefn b c))
            (Number_isPositive (comparefn a c)) = true).
  { intros a b c Ha Hb Hc.
    rewrite forallb_forall in Hall.
    specialize (Hall a (proj1 (list_elem_of_In _ _) Ha)).
    apply andb_true_iff in Hall as [Haa Hall].
    rewrite forallb_forall in Hall.
    specialize (Hall b (proj1 (list_elem_of_In _ _) Hb)).
    apply andb_true_iff in Hall as [Hab Hall].
    apply andb_true_iff in Hab as [Hnan Hsym].
    rewrite forallb_forall in Hall.
    specialize (Hall c (proj1 (list_elem_of_In _ _) Hc)).
    apply andb_true_iff in Hall as [Hall Hgt].
    apply andb_true_iff in Hall as [Heq Hlt]. done. }
  unfold comesBefore, comparesEqual, comesAfter. split.
  - intros a b Ha Hb. destruct (Hthree a b a Ha Hb Ha) as (_ & Hnan & _).
    by apply negb_true_iff.
  - intros a Ha. destruct (Hthree a a a Ha Ha Ha) as (Haa & _).
    by apply negb_true_iff.
  - intros a b Ha Hb Hab. destruct (Hthree a b a Ha Hb Ha) as (_ & _ & Hsym & _).
    rewrite Hab in Hsym. by apply negb_true_iff.
  - intros a b c Ha Hb Hc Hab Hbc.
    destruct (Hthree a b c Ha Hb Hc) as (_ & _ & _ & Heq & _).
    rewrite Hab, Hbc in Heq. by apply negb_true_iff.
  - intros a b c Ha Hb Hc Hab Hbc.
    destruct (Hthree a b c Ha Hb Hc) as (_ & _ & _ & _ & Hlt & _).
    by rewrite Hab, Hbc in Hlt.
  - intros a b c Ha Hb Hc Hab Hbc.
    destruct (Hthree a b c Ha Hb Hc) as (_ & _ & _ & _ & _ & Hgt).
    by rewrite Hab, Hbc in Hgt.
Qed.

Lemma consistentOn_subset (l k : list A) :
  (∀ a, a ∈ k → a ∈ l) → consistentOn comparefn l → consistentOn comparefn k.
Proof. intros Hsub [? ? ? ? ? ?]. split; eauto 10. Qed.

(** For a consistent comparator, what comes before an element has that
    element after it. *)
Lemma consistent_flip (l : list A) (a b : A) :
  consistentOn comparefn l → a ∈ l → b ∈ l →
  comesBefore comparefn a b → comesAfter comparefn b a.
Proof.
  intros Hc Ha Hb Hab. unfold comesBefore, comesAfter in *.
  pose proof (consistent_number _ _ Hc b a Hb Ha) as Hnan.
  destruct (Number_sign_cases _ Hnan) as [(Hlt & _)|[(_ & Heq & _)|(_ & _ & Hgt)]];
    [| |done].
  - pose proof (consistent_before _ _ Hc a b a Ha Hb Ha Hab Hlt) as Haa.
    pose proof (consistent_refl _ _ Hc a Ha) as Hrefl.
    unfold comesBefore, comparesEqual in *.
    destruct (Number_sign_cases _ (consistent_number _ _ Hc a a Ha Ha))
      as [(_ & ? & _)|[(? & _)|(? & _)]]; congruence.
  - pose proof (consistent_sym _ _ Hc b a Hb Ha Heq) as Hsym.
    unfold comparesEqual in *.
    destruct (Number_sign_cases _ (consistent_number _ _ Hc a b Ha Hb))
      as [(_ & ? & _)|[(? & _)|(? & _)]]; congruence.
Qed.

(** In a strictly descending run every element comes before the first. *)
Lemma descendingRun_first (x : A) (l : list A) :
  consistentOn comparefn (x :: l) →
  descendingRun comparefn (x :: l) = true →
  ∀ y, y ∈ l → comesBefore comparefn y x.
Proof.
  intros Hc. revert x Hc. induction l as [|z l IH]; intros x Hc Hrun y Hy.
  { by apply elem_of_nil in Hy. }
  cbn [descendingRun] in Hrun. apply andb_true_iff in Hrun as [Hzx Hrun].
  apply elem_of_cons in Hy as [->|Hy]; [done|].
  assert (Hyz : comesBefore comparefn y z).
  { apply IH; [|done|done].
    eapply consistentOn_subset; [|exact Hc]. intros a Ha. by right. }
  apply (consistent_before _ _ Hc y z x); [| | |done|done].
  - right. by right.
  - right. by left.
  - by left.
Qed.

Lemma insertSorted_last (x : A) (l : list A) :
  (∀ y, y ∈ l → comesAfter comparefn x y) →
  insertSorted comparefn x l = l ++ [x].
Proof.
  induction l as [|y l IH]; intros Hall; [done|]. cbn [insertSorted].
  rewrite (Hall y) by (by left). cbn [app]. f_equal. apply IH.
  intros z Hz. apply Hall. by right.
Qed.

(** For a consistent comparator, the reverse of a strictly descending run
    is the sorted sequence. *)
Lemma descendingRun_sorted (l : list A) :
  consistentOn comparefn l →
  descendingRun comparefn l = true →
  rev l = stableSort comparefn l.
Proof.
  induction l as [|x l IH]; intros Hc Hrun; [done|].
  change (stableSort comparefn (x :: l))
    with (insertSorted comparefn x (stableSort comparefn l)).
  assert (Htail : descendingRun comparefn l = true).
  { cbn [descendingRun] in Hrun. destruct l as [|y l]; [done|].
    by apply andb_true_iff in Hrun as [_ ?]. }
  rewrite <- IH; [|eapply consistentOn_subset; [|exact Hc]; intros a Ha; by right|done].
  rewrite insertSorted_last; [done|].
  intros y Hy. rewrite <- (Permutation_rev l) in Hy.
  apply (consistent_flip (x :: l)); [done|by right|by left|].
  by apply (descendingRun_first x l).
Qed.
End Consistent.

(** The two engines conform. *)
Lemma insertionEngine_conforming : Conforming insertionEngine.
Proof.
  split.
  - intros A comparefn l. apply stableSort_Permutation.
  - done.
Qed.

Lemma runEngine_conforming : Conforming runEngine.
Proof.
  split.
  - intros A comparefn l. cbn [Array_sort runEngine]. unfold runSort.
    destruct (descendingRun comparefn l).
    + symmetry. apply Permutation_rev.
    + apply stableSort_Permutation.
  - intros A comparefn l Hc. cbn [Array_sort runEngine]. unfold runSort.
    destruct (descendingRun comparefn l) eqn:Hrun; [|done].
    by apply descendingRun_sorted.
Qed.

Section SortStep.
Context `{Host} {engine : SortEngine}.

(** The sort step rearranges the filtered rows. *)
Lemma sortRows_Permutation sortStack filtered :
  Conforming engine → sortRows sortStack filtered ≡ₚ filtered.
Proof.
  intros Hconf. unfold sortRows. destruct (0 <? length sortStack); [|done].
  apply sort_permutes.
Qed.

(** C3, as amended: for every engine that conforms to the language, every
    sort stack and every filtered sequence on which the page's comparator
    is a consistent comparison function, two rows that tie on all the keys
    of the stack stand in the sorted sequence in the order they have in the
    filtered sequence. *)
Theorem sort_is_stable (sortStack : list SortKey) (filtered : list DisplayRow)
    (a b : DisplayRow) :
  Conforming engine →
  consistentOn (comparator sortStack) filtered →
  precedes a b filtered →
  tiesOn sortStack a b →
  precedes a b (sortRows sortStack filtered).
Proof.
  intros Hconf Hcons Hab Hties. unfold sortRows.
  destruct (0 <? length sortStack); [|done].
  rewrite sort_consistent by done.
  apply stableSort_stable; [done|].
  by rewrite comparator_ties.
Qed.
End SortStep.

(** Rows 0 and 2 tie on the first column and keep their order around the
    row that the sort moves to the front. *)
Lemma sort_is_stable_witness :
  let rows := indexRows [[str "2"; str "p"]; [str "1"; str "q"]; [str "2"; str "r"]] in
  let a := {| data := [str "2"; str "p"]; originalIndex := 0 |} in
  let b := {| data := [str "2"; str "r"]; originalIndex := 2 |} in
  let stack := [{| col := 0; dir := asc |}] in
  Conforming runEngine
  ∧ consistentOn (@comparator exampleHost stack) rows
  ∧ precedes a b rows ∧ @tiesOn exampleHost stack a b
  ∧ precedes a b (@sortRows exampleHost runEngine stack rows).
Proof.
  intros rows a b stack.
  assert (Hcons : consistentOn (@comparator exampleHost stack) rows).
  { apply consistentOnb_spec. vm_compute. reflexivity. }
  assert (Hab : precedes a b rows).
  { unfold precedes. apply sublist_skip, sublist_cons, sublist_skip, sublist_nil_l. }
  assert (Hties : @tiesOn exampleHost stack a b).
  { constructor; [reflexivity|constructor]. }
  split; [exact runEngine_conforming|]. split; [exact Hcons|].
  split; [exact Hab|]. split; [exact Hties|].
  exact (@sort_is_stable exampleHost runEngine stack rows a b
           runEngine_conforming Hcons Hab Hties).
Defined.

(** C3 as the specification states it fails on a column that holds numbers
    and other texts.  The rows [" 9"], ["5"], ["-x"], [" 9"], sorted on
    their column: 5 is less than 9 as a number, and as texts [-x] collates
    before [5] and [ 9] before [-x], so the comparator is not consistent and
    the array is one strictly descending run, which the engine reverses:
    the two rows [" 9"], which tie, change places. *)
Lemma sort_not_stable_on_mixed_column :
  let rows := indexRows [[str " 9"]; [str "5"]; [str "-x"]; [str " 9"]] in
  let a := {| data := [str " 9"]; originalIndex := 0 |} in
  let b := {| data := [str " 9"]; originalIndex := 3 |} in
  let stack := [{| col := 0; dir := asc |}] in
  Conforming runEngine
  ∧ precedes a b rows ∧ @tiesOn exampleHost stack a b
  ∧ map originalIndex (@sortRows exampleHost runEngine stack rows) = [3; 2; 1; 0]
  ∧ ¬ precedes a b (@sortRows exampleHost runEngine stack rows).
Proof.
  intros rows a b stack.
  split; [exact runEngine_conforming|].
  split; [unfold precedes;
          apply sublist_skip, sublist_cons, sublist_cons, sublist_skip, sublist_nil_l|].
  split; [constructor; [reflexivity|constructor]|].
  split; [vm_compute; reflexivity|].
  assert (Hsorted : @sortRows exampleHost runEngine stack rows
                    = [b; {| data := [str "-x"]; originalIndex := 2 |};
                       {| data := [str "5"]; originalIndex := 1 |}; a])
    by (vm_compute; reflexivity).
  rewrite Hsorted. unfold precedes. intros Hsub.
  apply sublist_cons_l in Hsub as (k1 & k2 & Heq & Hsub).
  apply sublist_cons_l in Hsub as (k3 & k4 & -> & _).
  destruct k1 as [|r1 [|r2 [|r3 [|r4 k1]]]]; cbn [app] in Heq;
    try discriminate Heq.
  - injection Heq as _ _ _ Heq. by destruct k3.
  - injection Heq as _ _ _ _ Heq. by destruct k1.
Qed.

(** ** The comparator, key by key *)

Section ComparatorSpec.
Context `{Host}.

End ComparatorSpec.









(** ** [parseFloat] and the numeric path *)











Section NumericPath.
Context `{Host}.

End NumericPath.

(** ** The sort stack's transitions *)

Lemma findIndex_None c stack :
  findIndex c stack = None → c ∉ stackCols stack.
Proof.
  induction stack as [|s rest IH]; simpl; [intros _; apply not_elem_of_nil|].
  case_decide as Hc; [done|].
  destruct (findIndex c rest); [done|]. intros _.
  apply not_elem_of_cons. split; [done|]. by apply IH.
Qed.

Lemma findIndex_Some c stack i :
  findIndex c stack = Some i →
  ∃ higher key lower,
    stack = higher ++ key :: lower ∧ length higher = i ∧ col key = c.
Proof.
  revert i. induction stack as [|s rest IH]; intros i; simpl; [done|].
  case_decide as Hc.
  - intros [= <-]. by exists [], s, rest.
  - destruct (findIndex c rest) as [j|]; [|done]. intros [= <-].
    destruct (IH j eq_refl) as (higher & key & lower & -> & <- & Hkey).
    by exists (s :: higher), key, lower.
Qed.

(** The index found is that of the first key of the column. *)
Lemma findIndex_first c higher key lower :
  col key = c → c ∉ stackCols higher →
  findIndex c (higher ++ key :: lower) = Some (length higher).
Proof.
  intros Hkey. induction higher as [|s higher IH]; intros Hnot; simpl.
  - by rewrite decide_True.
  - apply not_elem_of_cons in Hnot as [Hs Hnot].
    rewrite decide_False by done. by rewrite IH.
Qed.

Lemma findIndex_absent c stack :
  c ∉ stackCols stack → findIndex c stack = None.
Proof.
  intros Hnot. destruct (findIndex c stack) as [i|] eqn:Hfind; [|done].
  destruct (findIndex_Some _ _ _ Hfind) as (higher & key & lower & -> & _ & Hkey).
  exfalso. apply Hnot. unfold stackCols. rewrite map_app. simpl.
  apply elem_of_app. right. rewrite Hkey. apply elem_of_cons. by left.
Qed.

Lemma limitStack_short stack : length stack ≤ 3 → limitStack stack = stack.
Proof.
  intros Hlen. unfold limitStack.
  by destruct (Nat.ltb_spec 3 (length stack)); [lia|].
Qed.

Lemma limitStack_long stack : 3 < length stack → limitStack stack = removelast stack.
Proof.
  intros Hlen. unfold limitStack.
  by destruct (Nat.ltb_spec 3 (length stack)); [|lia].
Qed.

Lemma removelast_cons_length {A} (x : A) (l : list A) :
  length (removelast (x :: l)) = length l.
Proof.
  rewrite removelast_firstn_len, length_take. simpl. lia.
Qed.

Lemma removelast_sublist {A} (l : list A) : removelast l `sublist_of` l.
Proof.
  induction l as [|x [|y l] IH]; [done|by apply sublist_cons|].
  change (removelast (x :: y :: l)) with (x :: removelast (y :: l)).
  by apply sublist_skip.
Qed.

Lemma stackCols_removelast stack :
  stackCols (removelast stack) = removelast (stackCols stack).
Proof.
  induction stack as [|x [|y l] IH]; [done|done|].
  change (removelast (x :: y :: l)) with (x :: removelast (y :: l)).
  unfold stackCols in *. simpl map. simpl in IH. by rewrite IH.
Qed.

Lemma limitStack_ok stack :
  length stack ≤ 4 → NoDup (stackCols stack) → stackOk (limitStack stack).
Proof.
  intros Hlen Hnd. unfold limitStack.
  destruct (Nat.ltb_spec 3 (length stack)); [|done]. split.
  - destruct stack as [|x l]; [simpl; lia|].
    rewrite removelast_cons_length. simpl in Hlen. lia.
  - rewrite stackCols_removelast.
    eapply sublist_NoDup; [exact Hnd|apply removelast_sublist].
Qed.

Lemma headerClick_ok c stack : stackOk stack → stackOk (headerClick c stack).
Proof.
  intros [Hlen Hnd]. unfold headerClick.
  destruct (findIndex c stack) as [[|k]|] eqn:Hfind.
  - destruct stack as [|s0 rest]; [by apply limitStack_ok; [simpl; lia|]|].
    simpl in Hlen. destruct (dir s0).
    + apply limitStack_ok; [simpl; lia|done].
    + apply limitStack_ok; [lia|]. by apply NoDup_cons in Hnd as [_ ?].
  - destruct (findIndex_Some _ _ _ Hfind) as (higher & key & lower & -> & Hk & Hkey).
    rewrite <- Hk, list_lookup_middle by done.
    replace (delete (length higher) (higher ++ key :: lower))
      with (higher ++ lower).
    2:{ clear. induction higher; [done|]. simpl. by f_equal. }
    rewrite length_app in Hlen. simpl in Hlen.
    apply limitStack_ok; [simpl; rewrite length_app; lia|].
    unfold stackCols in *. rewrite map_app in Hnd. simpl in *.
    rewrite map_app, Hkey.
    rewrite Hkey in Hnd. by rewrite Permutation_middle.
  - apply limitStack_ok; [simpl; lia|].
    unfold stackCols. simpl. apply NoDup_cons. split; [|done].
    by apply findIndex_None.
Qed.

(** C5: whatever header clicks and clear-sort clicks follow one another from
    the empty stack, the stack holds at most three keys and no column
    twice. *)
Theorem sort_stack_invariant (ops : list SortOp) :
  length (runSortOps ops) ≤ 3 ∧ NoDup (stackCols (runSortOps ops)).
Proof.
  unfold runSortOps.
  assert (Hgen : ∀ stack, stackOk stack → stackOk (foldl applySortOp stack ops)).
  { induction ops as [|op ops IH]; intros stack Hok; [done|].
    simpl. apply IH. destruct op as [c|]; simpl.
    - by apply headerClick_ok.
    - split; [simpl; lia|constructor]. }
  apply Hgen. split; [simpl; lia|constructor].
Qed.

(** C4: on a sort stack (at most three keys, no column twice) a click on
    the header of column [c] turns an ascending primary key [c] into the
    descending primary key, in place; removes a descending primary key [c],
    after which the stack has no key of [c]; moves a key of [c] found behind
    the primary key to the front as ascending, the keys it passes following
    in their order, one place lower each; puts a new ascending key in front,
    before all the others, when the stack has no key of [c]; and drops the
    last key when that makes four. *)
Theorem headerClick_transition (c : nat) (stack : list SortKey) :
  length stack ≤ 3 → NoDup (stackCols stack) →
  (∀ rest, stack = {| col := c; dir := asc |} :: rest →
     headerClick c stack = {| col := c; dir := desc |} :: rest)
  ∧ (∀ rest, stack = {| col := c; dir := desc |} :: rest →
       headerClick c stack = rest ∧ c ∉ stackCols rest)
  ∧ (∀ higher d lower,
       stack = higher ++ {| col := c; dir := d |} :: lower → higher ≠ [] →
       headerClick c stack = {| col := c; dir := asc |} :: higher ++ lower)
  ∧ (c ∉ stackCols stack → length stack < 3 →
       headerClick c stack = {| col := c; dir := asc |} :: stack)
  ∧ (c ∉ stackCols stack → length stack = 3 →
       headerClick c stack = {| col := c; dir := asc |} :: removelast stack).
Proof.
  intros Hlen Hnd. repeat split.
  - intros rest ->. unfold headerClick. simpl. rewrite decide_True by done.
    by apply limitStack_short.
  - subst. unfold headerClick. simpl. rewrite decide_True by done.
    apply limitStack_short. simpl in Hlen. lia.
  - subst. unfold stackCols in Hnd. simpl in Hnd.
    by apply NoDup_cons in Hnd as [? _].
  - intros higher d lower -> Hne. unfold headerClick.
    assert (c ∉ stackCols higher) as Hnot.
    { unfold stackCols in *. rewrite map_app in Hnd. simpl in Hnd.
      apply NoDup_app in Hnd as (_ & Hdisj & _). intros Hin.
      apply (Hdisj c Hin). apply elem_of_cons. by left. }
    rewrite findIndex_first by done.
    destruct higher as [|s higher]; [done|]. simpl length.
    rewrite (list_lookup_middle (s :: higher)) by done.
    replace (delete (S (length higher)) ((s :: higher) ++ _ :: lower))
      with ((s :: higher) ++ lower).
    2:{ simpl. f_equal. clear. induction higher; [done|]. simpl. by f_equal. }
    apply limitStack_short. simpl in *. rewrite !length_app in *. simpl in *. lia.
  - intros Hnot Hshort. unfold headerClick. rewrite findIndex_absent by done.
    apply limitStack_short. simpl. lia.
  - intros Hnot Hfull. unfold headerClick. rewrite findIndex_absent by done.
    rewrite limitStack_long by (simpl; lia).
    destruct stack; [done|]. done.
Qed.

(** A stack of three keys, clicked on its second column and on a new one. *)
Lemma headerClick_transition_witness :
  let A := {| col := 0; dir := asc |} in
  let B := {| col := 1; dir := desc |} in
  let C := {| col := 2; dir := asc |} in
  length [A; B; C] ≤ 3 ∧ NoDup (stackCols [A; B; C])
  ∧ headerClick 1 [A; B; C] = [{| col := 1; dir := asc |}; A; C]
  ∧ headerClick 7 [A; B; C] = [{| col := 7; dir := asc |}; A; B].
Proof.
  intros A B C.
  assert (Hlen : length [A; B; C] ≤ 3) by (simpl; lia).
  assert (Hnd : NoDup (stackCols [A; B; C])) by (by apply (bool_decide_unpack _)).
  split; [exact Hlen|]. split; [exact Hnd|].
  split.
  - apply (proj1 (proj2 (proj2 (headerClick_transition 1 [A; B; C] Hlen Hnd)))
             [A] desc [C]); done.
  - apply (proj2 (proj2 (proj2 (proj2
             (headerClick_transition 7 [A; B; C] Hlen Hnd))))).
    + by apply (bool_decide_unpack _).
    + reflexivity.
Defined.

(** ** The render window *)

Lemma rowsBetween_0 (n : nat) (rows : list DisplayRow) :
  rowsBetween 0 (n `min` length rows) rows = take n rows.
Proof.
  unfold rowsBetween. rewrite Nat.sub_0_r, drop_0.
  destruct (Nat.min_spec n (length rows)) as [[_ ->]|[Hle ->]]; [done|].
  by rewrite !take_ge by lia.
Qed.

(** What [extend] does to the window. *)
Lemma extend_window (v : View) :
  displayRows (extend v) = displayRows v
  ∧ visibleStartIndex (extend v) = visibleStartIndex v
  ∧ visibleEndIndex (extend v)
    = if (visibleEndIndex v <? length (displayRows v))
      then (visibleEndIndex v + ROWS_PER_BATCH) `min` length (displayRows v)
      else visibleEndIndex v.
Proof.
  unfold extend. by destruct (visibleEndIndex v <? length (displayRows v)).
Qed.

Lemma take_then_more {A} (l : list A) (n k : nat) :
  take n l ++ take k (drop n l) = take (n + k) l.
Proof.
  revert l. induction n as [|n IH]; intros [|x l]; simpl; try done.
  - by rewrite take_nil.
  - by rewrite IH.
Qed.

Lemma extend_ok (v : View) : windowOk v → windowOk (extend v).
Proof.
  intros (Hstart & Hbody & Hend). unfold extend.
  destruct (Nat.ltb_spec (visibleEndIndex v) (length (displayRows v))) as [Hlt|Hge];
    [|done].
  unfold windowOk, renderMoreRows. view_fields.
  split; [done|]. split; [|right; lia].
  rewrite Hstart, Hbody, Nat.add_0_r, length_take.
  unfold rowsBetween.
  replace (visibleEndIndex v `min` length (displayRows v))
    with (visibleEndIndex v) by lia.
  rewrite take_then_more. f_equal. unfold ROWS_PER_BATCH. lia.
Qed.

Section Window.
Context `{Host} `{SortEngine}.

Lemma applyFiltersAndSort_window (v : View) :
  window (applyFiltersAndSort v) = (0, ROWS_PER_BATCH)
  ∧ tableBody (applyFiltersAndSort v)
    = take ROWS_PER_BATCH (displayRows (applyFiltersAndSort v))
  ∧ displayRows (applyFiltersAndSort v)
    = sortRows (sortStack v)
        (filterRows (originalRows v) (getFilters (filterInputs v))).
Proof.
  unfold applyFiltersAndSort, renderTableBody, window. view_fields.
  split; [done|]. split; [|done]. apply rowsBetween_0.
Qed.

Lemma applyFiltersAndSort_ok (v : View) : windowOk (applyFiltersAndSort v).
Proof.
  destruct (applyFiltersAndSort_window v) as (Hw & Hbody & _).
  assert (Hs : visibleStartIndex (applyFiltersAndSort v) = 0)
    by exact (f_equal fst Hw).
  assert (He : visibleEndIndex (applyFiltersAndSort v) = ROWS_PER_BATCH)
    by exact (f_equal snd Hw).
  split; [done|]. split; [by rewrite He|by left].
Qed.

(** Between events the table body shows the window's rows, the window
    starts at 0, and its end is the first batch's or within the sequence. *)
Lemma react_ok (v : View) (e : Event) : windowOk v → windowOk (react v e).
Proof.
  intros Hok. destruct e as [nearBottom|c text| | | |c|]; simpl;
    try apply applyFiltersAndSort_ok.
  - unfold scrollTimer. destruct (_ && _); [by apply extend_ok|done].
  - done.
  - unfold sortHeaderClick. view_fields.
    destruct (5000 <? length (originalRows v)); [done|].
    apply applyFiltersAndSort_ok.
Qed.

Lemma initialView_ok rows ncol : windowOk (initialView rows ncol).
Proof.
  unfold initialView, renderTableBody, windowOk. view_fields.
  split; [done|]. split; [apply rowsBetween_0|by left].
Qed.

Lemma run_ok rows ncol (events : list Event) :
  windowOk (foldl react (initialView rows ncol) events).
Proof.
  generalize (initialView_ok rows ncol).
  generalize (initialView rows ncol) as v.
  induction events as [|e events IH]; intros v Hok; [done|].
  simpl. by apply IH, react_ok.
Qed.

End Window.


(** ** Column resizing *)

(** Without a drag a move changes nothing. *)
Lemma mousemove_idle (pageX : Z) (d : Drag) (t : TableCells) :
  isResizing d = false → mousemove pageX d t = Some t.
Proof. intros Hd. unfold mousemove. by rewrite Hd. Qed.

(** C7: during a drag on the handle of column [c], a move to [pageX] gives
    the column the width [max 60 (startWidth + (pageX - startX))]: it becomes
    the width and the minimal width of the column's two header cells, whose
    maximal width stays as it was, and the width, minimal and maximal width
    of the column's cell in every rendered body row.  The cells of every
    other column, in the header rows and in the body rows, keep the styles
    they had, and no row is added or removed. *)
Theorem mousemove_resizes_only_column (pageX : Z) (d : Drag) (t : TableCells) (c : nat) :
  isResizing d = true →
  currentCol d = Some c →
  c < length (filterRow t) →
  c < length (headerRow t) →
  let newWidth := Z.max 60 (startWidth d + (pageX - startX d)) in
  ∃ t', mousemove pageX d t = Some t'
    ∧ (∃ old, filterRow t !! c = Some old
              ∧ filterRow t' !! c
                = Some {| width := Some newWidth; minWidth := Some newWidth;
                          maxWidth := maxWidth old |})
    ∧ (∃ old, headerRow t !! c = Some old
              ∧ headerRow t' !! c
                = Some {| width := Some newWidth; minWidth := Some newWidth;
                          maxWidth := maxWidth old |})
    ∧ length (bodyRows t') = length (bodyRows t)
    ∧ (∀ i cells', bodyRows t' !! i = Some cells' →
         ∃ cells, bodyRows t !! i = Some cells
                  ∧ length cells' = length cells
                  ∧ cells' !! c
                    = (λ _, {| width := Some newWidth; minWidth := Some newWidth;
                               maxWidth := Some newWidth |}) <$> cells !! c
                  ∧ ∀ c', c' ≠ c → cells' !! c' = cells !! c')
    ∧ (∀ c', c' ≠ c →
         filterRow t' !! c' = filterRow t !! c'
         ∧ headerRow t' !! c' = headerRow t !! c').
Proof.
  intros Hd Hc Hf Hh newWidth. unfold mousemove. rewrite Hd, Hc. simpl.
  destruct (lookup_lt_is_Some_2 _ _ Hf) as [filterTh HfTh].
  destruct (lookup_lt_is_Some_2 _ _ Hh) as [headerTh HhTh].
  rewrite HfTh, HhTh. fold newWidth. eexists. split; [done|]. simpl.
  split; [exists filterTh; by rewrite list_lookup_insert_eq|].
  split; [exists headerTh; by rewrite list_lookup_insert_eq|].
  split; [by rewrite length_map|].
  split.
  - intros i cells' Hi. rewrite list_lookup_fmap in Hi.
    destruct (bodyRows t !! i) as [cells|]; [|done].
    injection Hi as <-. exists cells. split; [done|].
    split; [by rewrite length_alter|].
    split; [rewrite list_lookup_alter_eq; by destruct (cells !! c)|].
    intros c' Hne. by rewrite list_lookup_alter_ne.
  - intros c' Hne. by rewrite !list_lookup_insert_ne.
Qed.

(** A drag of the second of three columns, 25 pixels to the left of where
    it started, over one rendered row: the column gets the width 95, and a
    drag far to the left stops at the width 60. *)
Lemma mousemove_resizes_only_column_witness :
  let auto := {| width := None; minWidth := Some 80%Z; maxWidth := None |} in
  let cell := {| width := None; minWidth := None; maxWidth := None |} in
  let t := {| filterRow := [auto; auto; auto]; headerRow := [auto; auto; auto];
              bodyRows := [[cell; cell; cell]] |} in
  let d := mousedown 1 300 120 noDrag in
  isResizing d = true ∧ currentCol d = Some 1
  ∧ ∃ t', mousemove 275 d t = Some t'
          ∧ headerRow t' !! 1
            = Some {| width := Some 95%Z; minWidth := Some 95%Z; maxWidth := None |}
          ∧ bodyRows t'
            = [[cell; {| width := Some 95%Z; minWidth := Some 95%Z;
                         maxWidth := Some 95%Z |}; cell]]
          ∧ headerRow t' !! 0 = Some auto ∧ headerRow t' !! 2 = Some auto.
Proof.
  intros auto cell t d.
  split; [reflexivity|]. split; [reflexivity|].
  destruct (mousemove_resizes_only_column 275 d t 1 eq_refl eq_refl)
    as (t' & Hmove & _ & (old & Hold & Hnew) & _ & _ & Hother);
    [simpl; lia|simpl; lia|].
  exists t'. split; [exact Hmove|].
  split; [by injection Hold as <-|].
  split; [by injection Hmove as <-|].
  split; [by destruct (Hother 0 ltac:(lia)) as [_ ->]
         |by destruct (Hother 2 ltac:(lia)) as [_ ->]].
Defined.

(** ** The error page *)

(** The error page holds the escaped error text between the tags of its
    error box. *)
Lemma _getErrorHtml_surfaces (variableName error : jsstring) :
  ∃ before after,
    _getErrorHtml variableName error
    = before ++ str "<div class=" ++ [QUOT] ++ str "error" ++ [QUOT] ++ str ">"
             ++ _escapeHtml error ++ str "</div>" ++ after.
Proof.
  unfold _getErrorHtml.
  exists (errorPageHead ++ [10060%N] ++ str " Error loading " ++ variableName
          ++ str "</h2>
").
  exists (str "
<button onclick=" ++ [QUOT] ++ str "location.reload()" ++ [QUOT]
          ++ str ">Try Again</button>
</body></html>").
  change (str "</h2>
<div class=") with (str "</h2>
" ++ str "<div class=").
  change (str "</div>
<button onclick=") with (str "</div>" ++ str "
<button onclick=").
  by rewrite <- !(assoc_L (++)).
Qed.

(** A line without line feed is the first piece of what it starts. *)
Lemma splitOn_first_line (line rest : jsstring) :
  Forall (λ c, c ≠ 10%N) line →
  splitOn 10 (line ++ [10%N] ++ rest) = line :: splitOn 10 rest.
Proof.
  induction 1 as [|c line Hc _ IH]; [done|].
  change ((c :: line) ++ [10%N] ++ rest) with (c :: (line ++ [10%N] ++ rest)).
  cbn [splitOn]. rewrite IH. by destruct (N.eqb_spec c 10).
Qed.

(** A temporary file that starts with the error marker, a comma and a
    message gives the payload with that message. *)
Lemma readTempFile_error (message rest : jsstring) :
  Forall (λ c, c ≠ 10%N) message →
  readTempFile (str "__ERROR__," ++ message ++ [10%N] ++ rest)
  = Some (ErrorData message).
Proof.
  intros Hmsg. unfold readTempFile. change (chr "010") with 10%N.
  rewrite (assoc_L (++) (str "__ERROR__,")), splitOn_first_line.
  - reflexivity.
  - apply Forall_app. split; [|done].
    apply Forall_forall. intros c Hc.
    repeat (apply elem_of_cons in Hc as [->|Hc]; [done|]).
    by apply elem_of_nil in Hc.
Qed.

(** An error payload with a text shows the error page: it holds the escaped
    text in its error box and has no data row. *)
Lemma showLoaded_error (variableName error : jsstring) :
  error ≠ [] →
  showLoaded variableName (ErrorData error)
  = ErrorPage (_getErrorHtml variableName error)
  ∧ pageRows (showLoaded variableName (ErrorData error)) = [].
Proof. intros Hne. unfold showLoaded. by destruct error. Qed.

(** The payload whose error text is empty is what the reading of a
    temporary file with the error marker and an empty message leaves: the
    test [data.error] of [_loadData] is false for it, and the page shown is
    the manual page, without any row. *)
Lemma showLoaded_empty_error (variableName : jsstring) :
  readTempFile (str "__ERROR__,
") = Some (ErrorData [])
  ∧ showLoaded variableName (ErrorData []) = ManualPage variableName
  ∧ showLoaded variableName (ErrorData []) = showLoaded variableName NoData
  ∧ ∀ html, showLoaded variableName (ErrorData []) ≠ ErrorPage html.
Proof. by repeat split. Qed.

(** ** The specification's scenarios, run on the example host *)

(** Typing 2 (here with blanks around it) in the filter of the second
    column keeps Alice only. *)
Example scenario_filter_age :
  displayRows
    (foldl (@react exampleHost insertionEngine) (initialView people 2)
           [EvFilterInput 1 (str " 2 "); EvFilterTimer])
  = [{| data := [str "Alice"; str "25"]; originalIndex := 0 |}].
Proof. vm_compute. reflexivity. Qed.

(** A click on the header of the second column sorts by age as numbers:
    Bob (9), Alice (25), Carl (30); a second click reverses the order. *)
Example scenario_sort_age :
  map originalIndex
    (displayRows (foldl (@react exampleHost insertionEngine) (initialView people 2) [EvHeaderClick 1]))
  = [1; 0; 2]
  ∧ map originalIndex
      (displayRows (foldl (@react exampleHost insertionEngine) (initialView people 2)
                          [EvHeaderClick 1; EvHeaderClick 1]))
    = [2; 0; 1].
Proof. split; vm_compute; reflexivity. Qed.

(** Three clicks on one header: ascending, descending, removed; a click on
    another header in between demotes the first column without dropping
    it. *)
Example scenario_sort_cycle :
  runSortOps [Click 0] = [{| col := 0; dir := asc |}]
  ∧ runSortOps [Click 0; Click 0] = [{| col := 0; dir := desc |}]
  ∧ runSortOps [Click 0; Click 0; Click 0] = []
  ∧ runSortOps [Click 0; Click 1]
    = [{| col := 1; dir := asc |}; {| col := 0; dir := asc |}]
  ∧ runSortOps [Click 0; Click 1; Click 2; Click 3]
    = [{| col := 3; dir := asc |}; {| col := 2; dir := asc |};
       {| col := 1; dir := asc |}].
Proof. repeat split. Qed.

(** The window over 250 rows: 100 rows first, then 200, then all 250, and
    no more after that. *)
Example scenario_window :
  let v := initialView (replicate 250 [str "x"]) 1 in
  window v = (0, 100)
  ∧ window (extend v) = (0, 200)
  ∧ window (extend (extend v)) = (0, 250)
  ∧ extend (extend (extend v)) = extend (extend v)
  ∧ length (tableBody (extend (extend v))) = 250.
Proof. vm_compute. repeat split. Qed.

(** The error payload of the specification's scenario. *)
Example scenario_error_payload :
  showLoaded (str "df") (ErrorData (str "object not found"))
  = ErrorPage (_getErrorHtml (str "df") (str "object not found"))
  ∧ pageRows (showLoaded (str "df") (ErrorData (str "object not found"))) = []
  ∧ includes (_getErrorHtml (str "df") (str "object <b> not found"))
             (str "object &lt;b&gt; not found") = true.
Proof. vm_compute. repeat split. Qed.

(** Decimal texts are rounded to the nearest binary64 value, ties to even;
    too large a value is an infinity, too small a one a zero. *)
Example parseFloat_rounding :
  parseFloat (str "0.1") = S754_finite false 7205759403792794 (-56)
  ∧ parseFloat (str "9007199254740993") = Number_ofZ 9007199254740992
  ∧ parseFloat (str "9007199254740995") = Number_ofZ 9007199254740996
  ∧ parseFloat (str "4.9e-324") = S754_finite false 1 (-1074)
  ∧ parseFloat (str "2.4703282292062327e-324") = S754_zero false
  ∧ parseFloat (str "1.7976931348623157e308")
    = S754_finite false 9007199254740991 971
  ∧ parseFloat (str "1.7976931348623159e308") = Infinity false
  ∧ parseFloat (str "-0") = S754_zero true
  ∧ Number_sub (parseFloat (str "10")) (parseFloat (str "2")) = Number_ofZ 8.
Proof. vm_compute. repeat split. Qed.

Example parseFloat_examples :
  parseFloat (str "  -3.25e2 kg") = Number_sub (Number_ofZ 0) (Number_ofZ 325)
  ∧ parseFloat (str "12.") = Number_ofZ 12
  ∧ parseFloat (str "1e") = Number_ofZ 1
  ∧ parseFloat (str "Infinity!") = Infinity false
  ∧ isNaN (parseFloat (str "abc")) = true
  ∧ isNaN (parseFloat (str ".")) = true
  ∧ isNaN (parseFloat (str "-")) = true.
Proof. vm_compute. repeat split. Qed.

(** * Further properties *)

(** ** The line parser *)

(** Inside quotes, a quoted text is read back up to its closing quote. *)
Lemma parseCSVFrom_quoted (text rest current : jsstring) (result : list jsstring) :
  head rest ≠ Some QUOT →
  parseCSVFrom (replaceAll QUOT [QUOT; QUOT] text ++ QUOT :: rest) true current result
  = parseCSVFrom rest false (current ++ text) result.
Proof.
  intros Hrest. revert current.
  induction text as [|c text IH]; intros current.
  - rewrite app_nil_r. cbn [replaceAll app parseCSVFrom].
    rewrite N.eqb_refl. destruct rest as [|next rest']; [done|].
    destruct (N.eqb_spec next QUOT) as [->|_]; [by destruct Hrest|done].
  - cbn [replaceAll]. destruct (N.eqb_spec c QUOT) as [->|Hc].
    + cbn [app parseCSVFrom]. rewrite !N.eqb_refl.
      rewrite IH. by rewrite <- (assoc_L (++)).
    + cbn [app parseCSVFrom].
      destruct (N.eqb_spec c QUOT); [done|].
      rewrite IH. by rewrite <- (assoc_L (++)).
Qed.

Lemma parseCSVFrom_line (cells : list (option jsstring)) (result : list jsstring) :
  cells ≠ [] →
  parseCSVFrom (csvLine cells) false [] result
  = result ++ map (default []) cells.
Proof.
  revert result. induction cells as [|cell cells IH]; intros result Hne; [done|].
  destruct cells as [|cell' cells].
  - unfold csvLine. cbn [map joinWith]. destruct cell as [text|]; [|done].
    unfold writeCell, quoteField. cbn [app parseCSVFrom].
    rewrite N.eqb_refl, (parseCSVFrom_quoted text []) by done. done.
  - unfold csvLine in *. cbn [map joinWith] in *.
    destruct cell as [text|].
    + unfold writeCell at 1. unfold quoteField. cbn [app parseCSVFrom].
      rewrite N.eqb_refl. rewrite <- (assoc_L (++)).
      cbn [app]. rewrite parseCSVFrom_quoted by done.
      cbn [parseCSVFrom]. change (COMMA =? QUOT)%N with false.
      change (COMMA =? chr ",")%N with true. cbn [app].
      rewrite IH by done. by rewrite <- (assoc_L (++)).
    + cbn [writeCell app parseCSVFrom]. change (COMMA =? QUOT)%N with false.
      change (COMMA =? chr ",")%N with true.
      rewrite IH by done. by rewrite <- (assoc_L (++)).
Qed.

(** X1: a line of quoted fields is read back as the fields: whatever a
    field holds (commas, doubled double quotes), the parser returns its
    text, and a field written as nothing comes back as the empty text. *)
Theorem parseCSVLine_reads_quoted_line (cells : list (option jsstring)) :
  cells ≠ [] →
  _parseCSVLine (csvLine cells) = map (default []) cells.
Proof. intros Hne. unfold _parseCSVLine. by rewrite parseCSVFrom_line. Qed.

Lemma parseCSVLine_reads_quoted_line_witness :
  let cells := [Some (str "a,b"); None; Some ([QUOT] ++ str "x" ++ [QUOT])] in
  cells ≠ []
  ∧ _parseCSVLine (csvLine cells) = [str "a,b"; []; [QUOT] ++ str "x" ++ [QUOT]].
Proof.
  intros cells. assert (Hne : cells ≠ []) by done.
  split; [exact Hne|]. exact (parseCSVLine_reads_quoted_line cells Hne).
Defined.

Lemma splitOn_cons_piece (sep : N) (s : jsstring) :
  ∃ piece pieces, splitOn sep s = piece :: pieces.
Proof.
  induction s as [|c s (piece & pieces & IH)]; simpl; [by eexists _, _|].
  destruct (c =? sep)%N; [by eexists _, _|]. rewrite IH. by eexists _, _.
Qed.

Lemma parseCSVFrom_unquoted (line current : jsstring) (result : list jsstring) :
  QUOT ∉ line →
  parseCSVFrom line false current result
  = match splitOn COMMA line with
    | piece :: pieces => result ++ (current ++ piece) :: pieces
    | [] => result
    end.
Proof.
  revert current result. induction line as [|c line IH]; intros current result Hq.
  - cbn. by rewrite app_nil_r.
  - apply not_elem_of_cons in Hq as [Hc Hq].
    cbn [parseCSVFrom splitOn].
    destruct (N.eqb_spec c QUOT) as [->|_]; [done|].
    change (chr ",") with COMMA.
    destruct (N.eqb_spec c COMMA) as [->|_].
    + rewrite IH by done.
      destruct (splitOn_cons_piece COMMA line) as (piece & pieces & ->).
      by rewrite app_nil_r, <- (assoc_L (++)).
    + rewrite IH by done.
      destruct (splitOn_cons_piece COMMA line) as (piece & pieces & ->).
      by rewrite <- (assoc_L (++)).
Qed.

(** X2: on a line without a double quote the parser is the split at the
    commas; in particular the empty line gives one empty field, never no
    field. *)
Theorem parseCSVLine_unquoted_is_split (line : jsstring) :
  QUOT ∉ line →
  _parseCSVLine line = splitOn COMMA line.
Proof.
  intros Hq. unfold _parseCSVLine. rewrite parseCSVFrom_unquoted by done.
  by destruct (splitOn_cons_piece COMMA line) as (piece & pieces & ->).
Qed.

Lemma parseCSVLine_unquoted_is_split_witness :
  (QUOT ∉ str "a,,b") ∧ _parseCSVLine (str "a,,b") = [str "a"; []; str "b"].
Proof.
  assert (Hq : QUOT ∉ str "a,,b") by (by apply (bool_decide_unpack _)).
  split; [exact Hq|]. exact (parseCSVLine_unquoted_is_split (str "a,,b") Hq).
Defined.

(** ** The temporary file *)

Lemma startsWith_app (p s : jsstring) : startsWith p (p ++ s) = true.
Proof. induction p as [|c p IH]; [done|]. simpl. by rewrite N.eqb_refl. Qed.

Lemma startsWith_prefix (p s : jsstring) :
  startsWith p s = true ↔ ∃ rest, s = p ++ rest.
Proof.
  split.
  - revert s. induction p as [|c p IH]; intros s Hs; [by exists s|].
    destruct s as [|d s]; [done|]. simpl in Hs.
    apply andb_true_iff in Hs as [Hc Hs]. apply N.eqb_eq in Hc as ->.
    destruct (IH s Hs) as [rest ->]. by exists rest.
  - intros [rest ->]. apply startsWith_app.
Qed.

Lemma trimStart_nil (s : jsstring) :
  trimStart s = [] ↔ Forall (λ c, isWhiteSpace c = true) s.
Proof.
  induction s as [|c s IH]; [by split|]. simpl.
  destruct (isWhiteSpace c) eqn:Hc.
  - rewrite IH. split; [by constructor|by inversion 1].
  - split; [done|]. inversion 1; congruence.
Qed.

Lemma trimStart_blank (s : jsstring) :
  Forall (λ c, isWhiteSpace c = true) (trimStart s) → trimStart s = [].
Proof.
  induction s as [|c s IH]; [done|]. simpl.
  destruct (isWhiteSpace c) eqn:Hc; [done|]. inversion 1; congruence.
Qed.

(** A line is blank for [trim] exactly when it holds white space only. *)
Lemma trim_nil (s : jsstring) :
  trim s = [] ↔ Forall (λ c, isWhiteSpace c = true) s.
Proof.
  unfold trim, trimEnd. rewrite <- trimStart_nil. split.
  - intros H. apply (f_equal (@rev N)) in H. rewrite rev_involutive in H.
    simpl in H. apply trimStart_nil in H.
    apply trimStart_blank. apply Forall_forall. intros c Hc.
    rewrite Forall_forall in H. apply H.
    by apply list_elem_of_In, in_rev; rewrite rev_involutive; apply list_elem_of_In.
  - by intros ->.
Qed.

Lemma truthy_trim (c : N) (s : jsstring) :
  isWhiteSpace c = false → truthy (trim (c :: s)) = true.
Proof.
  intros Hc. destruct (trim (c :: s)) eqn:Ht; [|done].
  apply trim_nil in Ht. inversion Ht; congruence.
Qed.

Lemma splitOn_noLF (s : jsstring) : noLF s → splitOn 10 s = [s].
Proof.
  induction 1 as [|c s Hc _ IH]; [done|].
  cbn [splitOn]. rewrite IH. by destruct (N.eqb_spec c 10).
Qed.

Lemma first_line (content : jsstring) :
  noLF content ∨ ∃ line rest, content = line ++ [10%N] ++ rest ∧ noLF line.
Proof.
  induction content as [|c content IH]; [left; constructor|].
  destruct (N.eq_dec c 10%N) as [->|Hc].
  - right. exists [], content. split; [done|constructor].
  - destruct IH as [IH|(line & rest & -> & Hline)].
    + left. by constructor.
    + right. exists (c :: line), rest. split; [done|by constructor].
Qed.

Lemma splitOn_lines (lines : list jsstring) :
  Forall noLF lines →
  splitOn 10 (flat_map (λ line, line ++ [LF]) lines) = lines ++ [[]].
Proof.
  induction 1 as [|line lines Hline _ IH]; [done|].
  cbn [flat_map]. rewrite <- (assoc_L (++)).
  rewrite (splitOn_first_line line _ Hline). by rewrite IH.
Qed.

Lemma replaceAll_noLF (text : jsstring) :
  noLF text → noLF (replaceAll QUOT [QUOT; QUOT] text).
Proof.
  induction 1 as [|c text Hc _ IH]; [constructor|].
  cbn [replaceAll]. destruct (c =? QUOT)%N.
  - apply Forall_app. split; [|done]. by repeat constructor.
  - by constructor.
Qed.

Lemma csvLine_noLF (cells : list (option jsstring)) :
  cellsNoLF cells → noLF (csvLine cells).
Proof.
  unfold csvLine.
  induction 1 as [|cell cells Hcell Hcells IH]; [constructor|].
  assert (Hw : noLF (writeCell cell)).
  { destruct cell as [text|]; [|constructor]. simpl in Hcell.
    unfold writeCell, quoteField. apply Forall_app. split; [by repeat constructor|].
    apply Forall_app. split; [by apply replaceAll_noLF|by repeat constructor]. }
  destruct cells as [|cell' cells]; [done|].
  change (noLF (writeCell cell ++ [COMMA] ++ joinWith [COMMA] (map writeCell (cell' :: cells)))).
  apply Forall_app. split; [done|].
  apply Forall_app. split; [by repeat constructor|done].
Qed.

Lemma csvLine_head (cells : list (option jsstring)) :
  csvLine cells = []
  ∨ ∃ c rest, csvLine cells = c :: rest ∧ isWhiteSpace c = false.
Proof.
  destruct cells as [|[text|] cells].
  - by left.
  - right. exists QUOT. unfold csvLine. cbn [map joinWith writeCell].
    destruct (map writeCell cells); unfold quoteField; by eexists.
  - destruct cells as [|cell cells]; [by left|].
    right. exists COMMA. by eexists.
Qed.

Lemma csvLine_truthy_trim (cells : list (option jsstring)) :
  truthy (trim (csvLine cells)) = truthy (csvLine cells).
Proof.
  destruct (csvLine_head cells) as [->|(c & rest & -> & Hc)]; [done|].
  by rewrite truthy_trim.
Qed.

Lemma filter_csv_lines (rows : list (list (option jsstring))) :
  map _parseCSVLine
      (filter (λ line, truthy (trim line) = true) (map csvLine rows ++ [[]]))
  = map (map (default []))
        (filter (λ row, truthy (csvLine row) = true) rows).
Proof.
  induction rows as [|row rows IH]; [done|].
  cbn [map app]. rewrite !filter_cons, csvLine_truthy_trim.
  destruct (decide (truthy (csvLine row) = true)) as [Hrow|Hrow]; [|done].
  cbn [map]. rewrite IH. f_equal.
  unfold _parseCSVLine. apply (parseCSVFrom_line row []). by intros ->.
Qed.

Lemma startsWith_META_not_ERROR (line : jsstring) :
  startsWith (str "__META__") line = true →
  startsWith (str "__ERROR__") line = false.
Proof.
  intros [rest ->]%startsWith_prefix. reflexivity.
Qed.

(** X3: the file of a table is read back as the table.  The columns are the
    header's fields, and the rows are the written rows in their order, each
    with its fields; a missing value comes back as the empty text, and a
    row whose line is empty (a single missing value) is left out. *)
Theorem readTempFile_reads_table (metaLine : jsstring)
    (columns : list (option jsstring)) (rows : list (list (option jsstring))) :
  startsWith (str "__META__") metaLine = true →
  noLF metaLine →
  columns ≠ [] →
  cellsNoLF columns →
  Forall cellsNoLF rows →
  readTempFile (tableFile metaLine columns rows)
  = Some (TableData (map (default []) columns)
            (map (map (default []))
                 (filter (λ row, truthy (csvLine row) = true) rows))).
Proof.
  intros Hmeta HmetaLF Hcols HcolsLF HrowsLF.
  unfold readTempFile, tableFile. change (chr "010") with 10%N.
  change [LF] with [10%N].
  rewrite (splitOn_first_line metaLine _ HmetaLF).
  rewrite (splitOn_first_line (csvLine columns) _ (csvLine_noLF _ HcolsLF)).
  assert (Hlines : flat_map (λ row, csvLine row ++ [10%N]) rows
                   = flat_map (λ line, line ++ [LF]) (map csvLine rows)).
  { clear. induction rows as [|row rows IH]; [done|]. simpl. by rewrite IH. }
  rewrite Hlines, splitOn_lines.
  2:{ apply Forall_fmap. eapply Forall_impl; [exact HrowsLF|].
      intros row Hrow. by apply csvLine_noLF. }
  cbn [lookup list_lookup default from_option drop].
  unfold id. rewrite drop_0, (startsWith_META_not_ERROR _ Hmeta), Hmeta.
  rewrite filter_csv_lines. do 3 f_equal.
  unfold _parseCSVLine. by apply (parseCSVFrom_line columns []).
Qed.

Lemma readTempFile_reads_table_witness :
  readTempFile
    (tableFile (str "__META__,3,2") [Some (str "name"); Some (str "note")]
       [[Some (str "Ann"); Some (str "a,b")]; [None; Some [QUOT]];
        [Some []; None]])
  = Some (TableData [str "name"; str "note"]
            [[str "Ann"; str "a,b"]; [[]; [QUOT]]; [[]; []]]).
Proof.
  apply (readTempFile_reads_table (str "__META__,3,2")
           [Some (str "name"); Some (str "note")]
           [[Some (str "Ann"); Some (str "a,b")]; [None; Some [QUOT]];
            [Some []; None]]).
  - reflexivity.
  - unfold noLF. apply Forall_forall. intros c Hc. vm_compute in Hc.
    repeat (apply elem_of_cons in Hc as [->|Hc]; [done|]). by apply elem_of_nil in Hc.
  - done.
  - unfold cellsNoLF, noLF. repeat constructor; done.
  - unfold cellsNoLF, noLF. repeat constructor; done.
Defined.

(** X4: the reading of the file throws in one case only: the file starts
    with the table marker and holds no line feed yet, so that it has no
    header line to parse. *)
Theorem readTempFile_throws_iff (content : jsstring) :
  readTempFile content = None
  ↔ startsWith (str "__META__") content = true ∧ noLF content.
Proof.
  unfold readTempFile. change (chr "010") with 10%N.
  destruct (first_line content) as [Hno|(line & rest & -> & Hline)].
  - rewrite (splitOn_noLF _ Hno). cbn [lookup list_lookup from_option]. unfold id.
    destruct (startsWith (str "__ERROR__") content) eqn:Herr.
    + split; [done|]. intros [Hmeta _].
      by rewrite (startsWith_META_not_ERROR _ Hmeta) in Herr.
    + destruct (startsWith (str "__META__") content); [by split|].
      split; [done|]. by intros [? _].
  - rewrite (splitOn_first_line line rest Hline).
    cbn [lookup list_lookup from_option]. unfold id.
    destruct (splitOn_cons_piece 10%N rest) as (piece & pieces & ->).
    cbn [lookup list_lookup].
    assert (HLF : ¬ noLF (line ++ [10%N] ++ rest)).
    { intros H. apply Forall_app in H as [_ H]. by inversion H. }
    destruct (startsWith (str "__ERROR__") line); [by split; [|intros [_ ?]]|].
    destruct (startsWith (str "__META__") line); by split; [|intros [_ ?]].
Qed.

(** ** The polling loop and the page it leads to *)

Lemma pollFrom_step (fuel : nat) (disk : nat → Poll) (k : nat) (data : LoadedData) :
  k < 300 →
  pollFrom (S fuel) disk k (200 * N.of_nat k) data
  = match disk k with
    | NoFile | ReadThrows => pollFrom fuel disk (S k) (200 * N.of_nat (S k)) data
    | FileText content unlinked =>
        match readTempFile content with
        | Some loaded =>
            if unlinked then (assignData data loaded, Some k)
            else pollFrom fuel disk (S k) (200 * N.of_nat (S k))
                   (assignData data loaded)
        | None => pollFrom fuel disk (S k) (200 * N.of_nat (S k)) data
        end
    end.
Proof.
  intros Hk. cbn [pollFrom]. unfold maxWait, pollInterval.
  rewrite (proj2 (N.ltb_lt _ _)) by lia.
  by replace (200 * N.of_nat k + 200)%N with (200 * N.of_nat (S k))%N by lia.
Qed.

Lemma pollFrom_end (fuel : nat) (disk : nat → Poll) (k : nat) (data : LoadedData) :
  300 ≤ k → pollFrom fuel disk k (200 * N.of_nat k) data = (data, None).
Proof.
  intros Hk. destruct fuel as [|fuel]; [done|]. cbn [pollFrom].
  unfold maxWait. by rewrite (proj2 (N.ltb_ge _ _)) by lia.
Qed.

Lemma pollFrom_idle (n fuel : nat) (disk : nat → Poll) (k : nat) (data : LoadedData) :
  (∀ j, k ≤ j < k + n → pollIdle (disk j)) →
  k + n ≤ 300 →
  pollFrom (n + fuel) disk k (200 * N.of_nat k) data
  = pollFrom fuel disk (k + n) (200 * N.of_nat (k + n)) data.
Proof.
  revert k. induction n as [|n IH]; intros k Hidle Hk.
  - by rewrite Nat.add_0_r.
  - change (S n + fuel) with (S (n + fuel)). rewrite pollFrom_step by lia.
    assert (Hstep : pollFrom (n + fuel) disk (S k) (200 * N.of_nat (S k)) data
                    = pollFrom fuel disk (k + S n) (200 * N.of_nat (k + S n)) data).
    { rewrite IH; [by replace (S k + n) with (k + S n) by lia| |lia].
      intros j Hj. apply Hidle. lia. }
    specialize (Hidle k ltac:(lia)). unfold pollIdle in Hidle.
    destruct (disk k) as [| |content unlinked]; [done|done|].
    by rewrite Hidle.
Qed.

Lemma pollFrom_agree (fuel : nat) (disk disk' : nat → Poll) (k : nat)
    (data : LoadedData) :
  (∀ j, j < 300 → disk j = disk' j) →
  pollFrom fuel disk k (200 * N.of_nat k) data
  = pollFrom fuel disk' k (200 * N.of_nat k) data.
Proof.
  intros Hagree. revert k data. induction fuel as [|fuel IH]; intros k data; [done|].
  destruct (decide (k < 300)) as [Hk|Hk].
  - rewrite !pollFrom_step by done. rewrite <- (Hagree k Hk).
    destruct (disk k) as [| |content unlinked]; [done|done|].
    destruct (readTempFile content); [|done]. by destruct unlinked.
  - by rewrite !pollFrom_end by lia.
Qed.

Lemma pollFrom_source (fuel : nat) (disk : nat → Poll) (k : nat)
    (data loaded : LoadedData) (left : option nat) :
  pollFrom fuel disk k (200 * N.of_nat k) data = (loaded, left) →
  loaded = data
  ∨ ∃ j content unlinked,
      k ≤ j < 300 ∧ disk j = FileText content unlinked
      ∧ readTempFile content = Some loaded.
Proof.
  revert k data. induction fuel as [|fuel IH]; intros k data Hrun.
  { left. simpl in Hrun. congruence. }
  destruct (decide (k < 300)) as [Hk|Hk].
  2:{ rewrite pollFrom_end in Hrun by lia. left. congruence. }
  rewrite pollFrom_step in Hrun by done.
  assert (Hnext : ∀ data', pollFrom fuel disk (S k) (200 * N.of_nat (S k)) data'
                           = (loaded, left) →
            loaded = data'
            ∨ ∃ j content unlinked,
                k ≤ j < 300 ∧ disk j = FileText content unlinked
                ∧ readTempFile content = Some loaded).
  { intros data' Hrun'. destruct (IH _ _ Hrun') as [->|(j & c & u & Hj & Hd & Hr)].
    - by left.
    - right. exists j, c, u. split; [lia|done]. }
  destruct (disk k) as [| |content unlinked] eqn:Hdisk; [by apply Hnext..|].
  destruct (readTempFile content) as [read|] eqn:Hread; [|by apply Hnext].
  assert (Hassign : assignData data read = data
                    ∨ assignData data read = read) by (destruct read; auto).
  assert (Hhere : loaded = assignData data read →
            loaded = data
            ∨ ∃ j content unlinked,
                k ≤ j < 300 ∧ disk j = FileText content unlinked
                ∧ readTempFile content = Some loaded).
  { intros ->. destruct Hassign as [->| ->]; [by left|].
    right. exists k, content, unlinked. split; [lia|done]. }
  destruct unlinked.
  - apply Hhere. congruence.
  - destruct (Hnext _ Hrun) as [Heq|Hlater]; [by apply Hhere|by right].
Qed.

Lemma pollData_start (disk : nat → Poll) :
  pollData disk = pollFrom 301 disk 0 (200 * N.of_nat 0) NoData.
Proof. reflexivity. Qed.

(** X5: the loop is left at the first poll that finds a file it can read
    and delete: with nothing read at the polls before, [data] is what that
    file gives, and no later poll is made. *)
Theorem pollData_first_reading (disk : nat → Poll) (k : nat)
    (content : jsstring) (loaded : LoadedData) :
  k < 300 →
  (∀ j, j < k → pollIdle (disk j)) →
  disk k = FileText content true →
  readTempFile content = Some loaded →
  pollData disk = (loaded, Some k).
Proof.
  intros Hk Hidle Hdisk Hread. rewrite pollData_start.
  replace 301 with (k + S (300 - k)) by lia.
  rewrite pollFrom_idle; [|intros j Hj; apply Hidle; lia|lia].
  rewrite Nat.add_0_l, pollFrom_step, Hdisk, Hread by done.
  by destruct loaded.
Qed.

Lemma pollData_first_reading_witness :
  pollData (λ j, if j <? 2 then NoFile
                 else FileText (str "__ERROR__,no such object
") true)
  = (ErrorData (str "no such object"), Some 2).
Proof.
  apply (pollData_first_reading _ 2 (str "__ERROR__,no such object
")).
  - lia.
  - intros j Hj. by rewrite (proj2 (Nat.ltb_lt j 2) Hj).
  - reflexivity.
  - reflexivity.
Defined.

(** X6: the loop makes at most 300 polls (sixty seconds at one every 200
    milliseconds): what is on the disk from poll 300 on has no effect, and
    when none of the 300 polls reads anything the loop ends by itself with
    [data] still [null]. *)
Theorem pollData_bounded (disk disk' : nat → Poll) :
  (∀ j, j < 300 → disk j = disk' j) →
  pollData disk = pollData disk'
  ∧ ((∀ j, j < 300 → pollIdle (disk j)) → pollData disk = (NoData, None)).
Proof.
  intros Hagree. rewrite pollData_start. split.
  - by apply pollFrom_agree.
  - intros Hidle. change 301 with (300 + 1).
    rewrite pollFrom_idle; [|intros j Hj; apply Hidle; lia|lia].
    by rewrite pollFrom_end by lia.
Qed.

Lemma pollData_bounded_witness :
  pollData (λ j, if j <? 300 then NoFile else FileText (str "__META__") true)
  = pollData (λ _, NoFile)
  ∧ pollData (λ j, if j <? 300 then NoFile else FileText (str "__META__") true)
    = (NoData, None).
Proof.
  assert (Hagree : ∀ j, j < 300 →
            (if j <? 300 then NoFile else FileText (str "__META__") true) = NoFile).
  { intros j Hj. by rewrite (proj2 (Nat.ltb_lt j 300) Hj). }
  destruct (pollData_bounded
              (λ j, if j <? 300 then NoFile else FileText (str "__META__") true)
              (λ _, NoFile) Hagree) as [Hsame Hnone].
  split; [exact Hsame|]. apply Hnone. intros j Hj. by rewrite (Hagree j Hj).
Defined.

(** X7: a data page is never made up: when [_loadData] shows one, one of
    the two ways of running the R code resolved, and one of the first 300
    polls read a file with the table marker whose header and rows parse to
    the page's columns and rows. *)
Theorem loadData_data_page_source (w : Workbench) (disk : nat → Poll)
    (variableName shown : jsstring) (columns : list jsstring)
    (rows : list (list jsstring)) :
  _loadData w disk variableName = DataPage shown columns rows →
  shown = variableName
  ∧ (hasRuntime w && runtimeResolves w || consoleResolves w) = true
  ∧ ∃ j content unlinked,
      j < 300 ∧ disk j = FileText content unlinked
      ∧ readTempFile content = Some (TableData columns rows).
Proof.
  unfold _loadData. destruct (pollData disk) as [loaded left] eqn:Hpoll.
  cbn [fst]. intros Hpage.
  assert (Hexec : (hasRuntime w && runtimeResolves w || consoleResolves w) = true).
  { destruct (hasRuntime w), (runtimeResolves w), (consoleResolves w); done. }
  assert (Hshow : showLoaded variableName loaded = DataPage shown columns rows).
  { destruct (hasRuntime w), (runtimeResolves w), (consoleResolves w); done. }
  clear Hpage. unfold showLoaded in Hshow.
  destruct loaded as [|error|columns' rows']; [done|by destruct (truthy error)|].
  injection Hshow as <- <- <-. split; [done|]. split; [done|].
  rewrite pollData_start in Hpoll.
  destruct (pollFrom_source _ _ _ _ _ _ Hpoll) as [?|(j & c & u & Hj & Hd & Hr)];
    [done|].
  exists j, c, u. split; [lia|done].
Qed.

Lemma loadData_data_page_source_witness :
  let disk := λ j : nat, if j <? 1 then NoFile
                   else FileText (tableFile (str "__META__,1,1") [Some (str "x")]
                                    [[Some (str "7")]]) true in
  _loadData consoleOnly disk (str "df") = DataPage (str "df") [str "x"] [[str "7"]]
  ∧ ∃ j content unlinked,
      j < 300 ∧ disk j = FileText content unlinked
      ∧ readTempFile content = Some (TableData [str "x"] [[str "7"]]).
Proof.
  intros disk.
  assert (Hpage : _loadData consoleOnly disk (str "df")
                  = DataPage (str "df") [str "x"] [[str "7"]]) by reflexivity.
  split; [exact Hpage|].
  exact (proj2 (proj2 (loadData_data_page_source _ _ _ _ _ _ Hpage))).
Defined.

(** C8: an error payload gives a display without data rows that shows the
    error's text.  For every error text the page chosen has no data row and
    is never the data page; when the text is not empty it is the error page,
    with the text, escaped, in its error box, and for the empty text, where
    there is nothing to show, it is the manual page.  Nothing throws and
    nothing is tried again: the file that carries the error is read without
    an exception, the polling loop is left at the poll that reads it, and
    the page is assigned from that one reading. *)
Theorem error_payload_display (variableName error : jsstring) :
  let page := showLoaded variableName (ErrorData error) in
  pageRows page = []
  ∧ (∀ shown columns rows, page ≠ DataPage shown columns rows)
  ∧ (error ≠ [] →
     ∃ before after,
       page = ErrorPage (before ++ str "<div class=" ++ [QUOT] ++ str "error"
                         ++ [QUOT] ++ str ">" ++ _escapeHtml error
                         ++ str "</div>" ++ after))
  ∧ (error = [] → page = ManualPage variableName)
  ∧ (noLF error →
     ∀ rest (w : Workbench) (disk : nat → Poll) (k : nat),
       readTempFile (str "__ERROR__," ++ error ++ [10%N] ++ rest)
       = Some (ErrorData error)
       ∧ ((hasRuntime w && runtimeResolves w || consoleResolves w) = true →
          k < 300 →
          (∀ j, j < k → pollIdle (disk j)) →
          disk k = FileText (str "__ERROR__," ++ error ++ [10%N] ++ rest) true →
          pollData disk = (ErrorData error, Some k)
          ∧ _loadData w disk variableName = page)).
Proof.
  intros page. subst page.
  split; [unfold showLoaded; by destruct (truthy error)|].
  split; [intros shown columns rows; unfold showLoaded; by destruct (truthy error)|].
  split.
  { intros Hne.
    destruct (_getErrorHtml_surfaces variableName error) as (before & after & Hhtml).
    exists before, after. rewrite <- Hhtml. unfold showLoaded. by destruct error. }
  split; [by intros ->|].
  intros Hmsg rest w disk k.
  split; [by apply readTempFile_error|].
  intros Hexec Hk Hidle Hdisk.
  assert (Hpoll : pollData disk = (ErrorData error, Some k)).
  { rewrite pollData_start.
    replace 301 with (k + S (300 - k)) by lia.
    rewrite pollFrom_idle; [|intros j Hj; apply Hidle; lia|lia].
    by rewrite Nat.add_0_l, pollFrom_step, Hdisk, readTempFile_error by done. }
  split; [done|]. unfold _loadData. rewrite Hpoll. cbn [fst].
  by destruct (hasRuntime w), (runtimeResolves w), (consoleResolves w).
Qed.

(** X8: an R error reaches the user: when the R code was run and the first
    file read holds the error marker, a comma and a message (which may hold
    commas itself), the page shown is the error page, with the escaped
    message in its error box. *)
Theorem loadData_error_page (w : Workbench) (disk : nat → Poll) (k : nat)
    (variableName message rest : jsstring) :
  (hasRuntime w && runtimeResolves w || consoleResolves w) = true →
  k < 300 →
  (∀ j, j < k → pollIdle (disk j)) →
  disk k = FileText (str "__ERROR__," ++ message ++ [10%N] ++ rest) true →
  noLF message →
  message ≠ [] →
  ∃ before after,
    _loadData w disk variableName
    = ErrorPage (before ++ str "<div class=" ++ [QUOT] ++ str "error" ++ [QUOT]
                 ++ str ">" ++ _escapeHtml message ++ str "</div>" ++ after).
Proof.
  intros Hexec Hk Hidle Hdisk Hmsg Hne.
  destruct (_getErrorHtml_surfaces variableName message) as (before & after & Hhtml).
  exists before, after. rewrite <- Hhtml.
  assert (Hpoll : pollData disk = (ErrorData message, Some k)).
  { rewrite pollData_start.
    replace 301 with (k + S (300 - k)) by lia.
    rewrite pollFrom_idle; [|intros j Hj; apply Hidle; lia|lia].
    by rewrite Nat.add_0_l, pollFrom_step, Hdisk, readTempFile_error by done. }
  unfold _loadData. rewrite Hpoll. cbn [fst showLoaded].
  destruct message as [|c message]; [done|]. cbn [truthy].
  by destruct (hasRuntime w), (runtimeResolves w), (consoleResolves w).
Qed.

Lemma loadData_error_page_witness :
  ∃ before after,
    _loadData consoleOnly
      (λ _, FileText (str "__ERROR__,object 'df' not found; a<b, c
") true)
      (str "df")
    = ErrorPage (before ++ str "<div class=" ++ [QUOT] ++ str "error" ++ [QUOT]
                 ++ str ">" ++ _escapeHtml (str "object 'df' not found; a<b, c")
                 ++ str "</div>" ++ after).
Proof.
  apply (loadData_error_page consoleOnly _ 0 (str "df")
           (str "object 'df' not found; a<b, c") []).
  - reflexivity.
  - lia.
  - intros j Hj. lia.
  - reflexivity.
  - unfold noLF. apply Forall_forall. intros c Hc. vm_compute in Hc.
    repeat (apply elem_of_cons in Hc as [->|Hc]; [done|]). by apply elem_of_nil in Hc.
  - done.
Defined.

Lemma startsWith_first_line (p line rest : jsstring) :
  noLF p → startsWith p (line ++ [10%N] ++ rest) = startsWith p line.
Proof.
  intros Hp. revert line. induction Hp as [|x p Hx _ IH]; intros line; [done|].
  destruct line as [|y line]; cbn [app startsWith].
  - by rewrite (proj2 (N.eqb_neq x 10) Hx).
  - by rewrite IH.
Qed.

Lemma readTempFile_unmarked (content : jsstring) :
  startsWith (str "__ERROR__") content = false →
  startsWith (str "__META__") content = false →
  readTempFile content = Some NoData.
Proof.
  intros Herr Hmeta. unfold readTempFile. change (chr "010") with 10%N.
  assert (Hline : ∃ line, default [] (splitOn 10 content !! 0) = line
            ∧ startsWith (str "__ERROR__") line = false
            ∧ startsWith (str "__META__") line = false).
  { destruct (first_line content) as [Hno|(line & rest & -> & Hline)].
    - exists content. by rewrite (splitOn_noLF _ Hno).
    - exists line. rewrite (splitOn_first_line line rest Hline).
      split; [done|].
      rewrite startsWith_first_line in Herr by (by repeat constructor).
      rewrite startsWith_first_line in Hmeta by (by repeat constructor).
      done. }
  destruct Hline as (line & Hfirst & Herr' & Hmeta').
  cbv zeta. by rewrite Hfirst, Herr', Hmeta'.
Qed.

(** X21: a file without a marker ends the wait.  When the R code was run
    and the first file read starts with neither the error marker nor the
    table marker, the loop is left at that poll with [data] still [null],
    the file is deleted, and the page shown is the manual page. *)
Theorem loadData_unmarked_file (w : Workbench) (disk : nat → Poll) (k : nat)
    (variableName content : jsstring) :
  (hasRuntime w && runtimeResolves w || consoleResolves w) = true →
  k < 300 →
  (∀ j, j < k → pollIdle (disk j)) →
  disk k = FileText content true →
  startsWith (str "__ERROR__") content = false →
  startsWith (str "__META__") content = false →
  pollData disk = (NoData, Some k)
  ∧ _loadData w disk variableName = ManualPage variableName.
Proof.
  intros Hexec Hk Hidle Hdisk Herr Hmeta.
  assert (Hpoll : pollData disk = (NoData, Some k)).
  { rewrite pollData_start.
    replace 301 with (k + S (300 - k)) by lia.
    rewrite pollFrom_idle; [|intros j Hj; apply Hidle; lia|lia].
    by rewrite Nat.add_0_l, pollFrom_step, Hdisk, readTempFile_unmarked by done. }
  split; [done|]. unfold _loadData. rewrite Hpoll. cbn [fst showLoaded].
  by destruct (hasRuntime w), (runtimeResolves w), (consoleResolves w).
Qed.

Lemma loadData_unmarked_file_witness :
  pollData (λ _, FileText (str "__ME") true) = (NoData, Some 0)
  ∧ _loadData consoleOnly (λ _, FileText (str "__ME") true) (str "df")
    = ManualPage (str "df").
Proof.
  apply (loadData_unmarked_file consoleOnly (λ _, FileText (str "__ME") true) 0
           (str "df") (str "__ME")).
  - reflexivity.
  - lia.
  - intros j Hj. lia.
  - reflexivity.
  - reflexivity.
  - reflexivity.
Defined.

(** ** Regular expressions: the matcher and the relation *)

Lemma Matches_Seq (r1 r2 : Regex) (s : jsstring) :
  Matches (Seq r1 r2) s ↔ ∃ s1 s2, s = s1 ++ s2 ∧ Matches r1 s1 ∧ Matches r2 s2.
Proof.
  split.
  - inversion 1 as [| |? ? s1 s2 H1 H2 [Hr1 Hr2] Heq| | | |]; subst.
    by exists s1, s2.
  - intros (s1 & s2 & -> & H1 & H2). by constructor.
Qed.

Lemma Matches_Alt (r1 r2 : Regex) (s : jsstring) :
  Matches (Alt r1 r2) s ↔ Matches r1 s ∨ Matches r2 s.
Proof.
  split.
  - inversion 1; subst; auto.
  - intros [H|H]; [by apply MAltL|by apply MAltR].
Qed.

Lemma Matches_Eps (s : jsstring) : Matches Eps s ↔ s = [].
Proof. split; [by inversion 1|intros ->; constructor]. Qed.

Lemma Matches_Chr (cs : CharSet) (s : jsstring) :
  Matches (Chr cs) s ↔ ∃ c, s = [c] ∧ inSet cs c = true.
Proof.
  split.
  - inversion 1; subst. by eexists.
  - intros (c & -> & H). by constructor.
Qed.

Lemma nullable_Matches (r : Regex) : nullable r = true ↔ Matches r [].
Proof.
  induction r as [| |cs|r1 IH1 r2 IH2|r1 IH1 r2 IH2|r IH]; simpl.
  - split; [done|inversion 1].
  - split; [constructor|done].
  - split; [done|inversion 1].
  - rewrite andb_true_iff, IH1, IH2, Matches_Seq. split.
    + intros [H1 H2]. by exists [], [].
    + intros (s1 & s2 & Heq & H1 & H2). symmetry in Heq.
      by apply app_eq_nil in Heq as [-> ->].
  - by rewrite orb_true_iff, IH1, IH2, Matches_Alt.
  - split; [constructor|done].
Qed.

Lemma Matches_Star_cons (r : Regex) (c : N) (s : jsstring) :
  Matches (Star r) (c :: s) →
  ∃ s1 s2, s = s1 ++ s2 ∧ Matches r (c :: s1) ∧ Matches (Star r) s2.
Proof.
  intros H. remember (Star r) as r' eqn:Hr. remember (c :: s) as t eqn:Ht.
  revert s Ht.
  induction H as [| | | | | |r0 t1 t2 H1 _ H2 IH2]; intros u Ht; try done.
  injection Hr as ->. destruct t1 as [|d t1].
  - by apply IH2.
  - injection Ht as -> <-. by exists t1, t2.
Qed.

Lemma deriv_Matches (c : N) (r : Regex) (s : jsstring) :
  Matches (deriv c r) s ↔ Matches r (c :: s).
Proof.
  revert s. induction r as [| |cs|r1 IH1 r2 IH2|r1 IH1 r2 IH2|r IH]; intros s; simpl.
  - split; inversion 1.
  - split; inversion 1.
  - rewrite Matches_Chr. destruct (inSet cs c) eqn:Hc.
    + rewrite Matches_Eps. split.
      * intros ->. by exists c.
      * by intros (d & [= _ ->] & _).
    + split; [inversion 1|]. intros (d & [= <- _] & Hd). congruence.
  - assert (Hseq : Matches (Seq (deriv c r1) r2) s → Matches (Seq r1 r2) (c :: s)).
    { intros (s1 & s2 & -> & H1 & H2)%Matches_Seq.
      apply IH1 in H1. by apply (MSeq _ _ (c :: s1) s2). }
    assert (Hinv : Matches (Seq r1 r2) (c :: s) →
              Matches (Seq (deriv c r1) r2) s
              ∨ (Matches r1 [] ∧ Matches (deriv c r2) s)).
    { intros (s1 & s2 & Heq & H1 & H2)%Matches_Seq.
      destruct s1 as [|d s1].
      - right. simpl in Heq. subst. split; [done|by apply IH2].
      - left. injection Heq as <- ->. apply MSeq; [by apply IH1|done]. }
    destruct (nullable r1) eqn:Hn.
    + rewrite Matches_Alt. split.
      * intros [H|H]; [by apply Hseq|].
        apply (MSeq _ _ [] (c :: s)); [by apply nullable_Matches|by apply IH2].
      * intros H. destruct (Hinv H) as [?|[_ ?]]; [by left|by right].
    + split; [done|]. intros H. destruct (Hinv H) as [?|[H1 _]]; [done|].
      apply nullable_Matches in H1. congruence.
  - by rewrite !Matches_Alt, IH1, IH2.
  - split.
    + intros (s1 & s2 & -> & H1 & H2)%Matches_Seq.
      apply IH in H1. by apply (MStarS _ (c :: s1) s2).
    + intros H. apply Matches_Star_cons in H as (s1 & s2 & -> & H1 & H2).
      apply MSeq; [by apply IH|done].
Qed.

Lemma fullMatch_Matches (r : Regex) (s : jsstring) :
  fullMatch r s = true ↔ Matches r s.
Proof.
  revert r. induction s as [|c s IH]; intros r; simpl.
  - apply nullable_Matches.
  - by rewrite IH, deriv_Matches.
Qed.

Lemma matchesAt_Matches (r : Regex) (s : jsstring) :
  matchesAt r s = true ↔ ∃ m rest, s = m ++ rest ∧ Matches r m.
Proof.
  revert r. induction s as [|c s IH]; intros r; simpl.
  - rewrite orb_false_r, nullable_Matches. split.
    + intros H. by exists [], [].
    + intros (m & rest & Heq & H). symmetry in Heq.
      by apply app_eq_nil in Heq as [-> _].
  - rewrite orb_true_iff, nullable_Matches, IH. split.
    + intros [H|(m & rest & -> & H)].
      * by exists [], (c :: s).
      * exists (c :: m), rest. split; [done|by apply deriv_Matches].
    + intros (m & rest & Heq & H). destruct m as [|d m]; [by left|].
      injection Heq as <- ->. right. exists m, rest.
      split; [done|by apply deriv_Matches].
Qed.

Lemma test_Matches (r : Regex) (s : jsstring) :
  test r s = true ↔ ∃ before m after, s = before ++ m ++ after ∧ Matches r m.
Proof.
  induction s as [|c s IH]; cbn [test].
  - rewrite orb_false_r, matchesAt_Matches. split.
    + intros (m & rest & Heq & H). by exists [], m, rest.
    + intros (before & m & after & Heq & H). symmetry in Heq.
      apply app_eq_nil in Heq as [_ Heq]. apply app_eq_nil in Heq as [Hm _].
      subst m. by exists [], [].
  - rewrite orb_true_iff, IH, matchesAt_Matches. split.
    + intros [(m & rest & Heq & H)|(before & m & after & -> & H)].
      * by exists [], m, rest.
      * by exists (c :: before), m, after.
    + intros (before & m & after & Heq & H). destruct before as [|d before].
      * left. by exists m, after.
      * injection Heq as <- ->. right. by exists before, m, after.
Qed.

Lemma Matches_Star_Chr (cs : CharSet) (s : jsstring) :
  Matches (Star (Chr cs)) s ↔ Forall (λ c, inSet cs c = true) s.
Proof.
  split.
  - induction s as [|c s IH]; intros H; [constructor|].
    apply Matches_Star_cons in H as (s1 & s2 & -> & H1 & H2).
    apply Matches_Chr in H1 as (d & Heq & Hd). injection Heq as -> ->.
    constructor; [done|]. by apply IH.
  - induction 1 as [|c s Hc _ IH]; [constructor|].
    apply (MStarS _ [c] s); [by constructor|done].
Qed.

Lemma Matches_literal (text s : jsstring) : Matches (literal text) s ↔ s = text.
Proof.
  revert s. induction text as [|c text IH]; intros s; simpl.
  - apply Matches_Eps.
  - rewrite Matches_Seq. split.
    + intros (s1 & s2 & -> & H1 & H2). apply Matches_Chr in H1 as (d & -> & Hd).
      apply IH in H2 as ->. simpl in Hd. by apply N.eqb_eq in Hd as ->.
    + intros ->. exists [c], text. split; [done|].
      split; [constructor; simpl; apply N.eqb_refl|by apply IH].
Qed.

Lemma Matches_patternText (ignoreCase dotAll : bool) (source s : jsstring) :
  Matches (patternText ignoreCase dotAll source) s
  ↔ sameText ignoreCase dotAll source s.
Proof.
  unfold sameText. revert s. induction source as [|c source IH]; intros s; simpl.
  - rewrite Matches_Eps. split; [intros ->; constructor|by inversion 1].
  - rewrite Matches_Seq. split.
    + intros (s1 & s2 & -> & H1 & H2). apply Matches_Chr in H1 as (d & -> & Hd).
      constructor; [done|]. by apply IH.
    + inversion 1 as [|? d ? s' Hd Hrest]; subst. exists [d], s'.
      split; [done|]. split; [by constructor|by apply IH].
Qed.

(** A pattern's source matches itself. *)
Lemma sameText_refl (ignoreCase dotAll : bool) (source : jsstring) :
  sameText ignoreCase dotAll source source.
Proof.
  unfold sameText. induction source as [|c source IH]; constructor; [|done].
  unfold patternSet. destruct (N.eqb_spec c (chr ".")) as [->|_].
  - by destruct dotAll.
  - destruct ignoreCase; simpl; apply N.eqb_refl.
Qed.

Lemma test_extends (r : Regex) (before s after : jsstring) :
  test r s = true → test r (before ++ s ++ after) = true.
Proof.
  rewrite !test_Matches. intros (b & m & a & -> & H).
  exists (before ++ b), m, (a ++ after). split; [|done].
  by rewrite <- !(assoc_L (++)).
Qed.

(** ** [mightBeTibble] *)

Lemma Matches_Dot_star (s : jsstring) :
  Matches (Star (Chr Dot)) s ↔ Forall (λ c, isLineTerminator c = false) s.
Proof.
  rewrite Matches_Star_Chr. apply Forall_iff. intros c. simpl.
  apply negb_true_iff.
Qed.

Lemma Matches_DotAll_star (s : jsstring) : Matches (Star (Chr DotAll)) s.
Proof. apply Matches_Star_Chr. by apply Forall_forall. Qed.

Lemma test_creationRegex (varName pattern text : jsstring) :
  test (creationRegex varName pattern) text = true
  ↔ creationMatch varName pattern text.
Proof.
  rewrite test_Matches. unfold creationRegex, creationMatch. split.
  - intros (before & m & after & -> & H).
    apply Matches_Seq in H as (name & m1 & -> & Hname & H).
    apply Matches_Seq in H as (spaces & m2 & -> & Hspaces & H).
    apply Matches_Seq in H as (op & m3 & -> & Hop & H).
    apply Matches_Seq in H as (rest & found & -> & Hrest & Hfound).
    exists before, name, spaces, op, rest, found, after.
    split; [by rewrite <- !(assoc_L (++))|].
    split; [by apply Matches_patternText|].
    split; [by apply Matches_Star_Chr in Hspaces|].
    split; [by apply Matches_Alt in Hop as [?%Matches_literal|?%Matches_literal]; auto|].
    split; [by apply Matches_Dot_star|by apply Matches_patternText].
  - intros (before & name & spaces & op & rest & found & after
            & -> & Hname & Hspaces & Hop & Hrest & Hfound).
    exists before, (name ++ spaces ++ op ++ rest ++ found), after.
    split; [by rewrite <- !(assoc_L (++))|].
    apply MSeq; [by apply Matches_patternText|].
    apply MSeq; [by apply Matches_Star_Chr|].
    apply MSeq; [by apply Matches_Alt; destruct Hop as [-> | ->];
                   [left|right]; apply Matches_literal|].
    apply MSeq; [by apply Matches_Dot_star|by apply Matches_patternText].
Qed.

Lemma test_pipeRegex (varName text : jsstring) :
  test (pipeRegex varName) text = true ↔ pipeMatch varName text.
Proof.
  rewrite test_Matches. unfold pipeRegex, pipeMatch. split.
  - intros (before & m & after & -> & H).
    apply Matches_Seq in H as (name & m1 & -> & Hname & H).
    apply Matches_Seq in H as (spaces & m2 & -> & Hspaces & H).
    apply Matches_Seq in H as (op & m3 & -> & Hop & H).
    apply Matches_Seq in H as (rest & pipe & -> & Hrest & Hpipe).
    apply Matches_literal in Hop as ->.
    exists before, name, spaces, rest, pipe, after.
    split; [by rewrite <- !(assoc_L (++))|].
    split; [by apply Matches_patternText|].
    split; [by apply Matches_Star_Chr in Hspaces|].
    by apply Matches_Alt in Hpipe as [?%Matches_literal|?%Matches_literal]; auto.
  - intros (before & name & spaces & rest & pipe & after
            & -> & Hname & Hspaces & Hpipe).
    exists before, (name ++ spaces ++ str "<-" ++ rest ++ pipe), after.
    split; [by rewrite <- !(assoc_L (++))|].
    apply MSeq; [by apply Matches_patternText|].
    apply MSeq; [by apply Matches_Star_Chr|].
    apply MSeq; [by apply Matches_literal|].
    apply MSeq; [by apply Matches_DotAll_star|].
    by apply Matches_Alt; destruct Hpipe as [-> | ->];
      [left|right]; apply Matches_literal.
Qed.

Lemma mightBeTibble_tests (text varName : jsstring) :
  mightBeTibble text varName = true
  ↔ (∃ pattern, pattern ∈ TIBBLE_CREATION_PATTERNS
                ∧ test (creationRegex varName pattern) text = true)
    ∨ test (pipeRegex varName) text = true.
Proof.
  unfold mightBeTibble.
  destruct (existsb _ TIBBLE_CREATION_PATTERNS) eqn:Hany.
  - split; [|done]. intros _. left.
    apply existsb_exists in Hany as (pattern & Hin & Htest).
    exists pattern. by rewrite list_elem_of_In.
  - destruct (test (pipeRegex varName) text) eqn:Hpipe.
    + split; [by right|done].
    + split; [done|]. intros [(pattern & Hin & Htest)|?]; [|done].
      assert (existsb (λ pattern, test (creationRegex varName pattern) text)
                TIBBLE_CREATION_PATTERNS = true); [|congruence].
      apply existsb_exists. exists pattern. by rewrite <- list_elem_of_In.
Qed.

(** X9: what [mightBeTibble] looks for, written out.  For a name of word
    characters it answers yes exactly when the text holds, somewhere, the
    name (up to case, a dot of the name standing for any character), white
    space or none, [<-] or [=], anything on the same line and one of the
    creation patterns (up to case); or the name (a dot again for any
    character), white space or none, [<-], anything at all, line breaks
    included, and a pipe. *)
Theorem mightBeTibble_iff (text varName : jsstring) :
  Forall (λ c, isWordChar c = true) varName →
  mightBeTibble text varName = true
  ↔ (∃ pattern, pattern ∈ TIBBLE_CREATION_PATTERNS
                ∧ creationMatch varName pattern text)
    ∨ pipeMatch varName text.
Proof.
  intros _. rewrite mightBeTibble_tests, test_pipeRegex.
  by setoid_rewrite test_creationRegex.
Qed.

Lemma mightBeTibble_iff_witness :
  mightBeTibble (str "x <- 1
sales.2024 = READ.CSV(path)") (str "sales.2024") = true
  ∧ ((∃ pattern, pattern ∈ TIBBLE_CREATION_PATTERNS
                 ∧ creationMatch (str "sales.2024") pattern (str "x <- 1
sales.2024 = READ.CSV(path)"))
     ∨ pipeMatch (str "sales.2024") (str "x <- 1
sales.2024 = READ.CSV(path)")).
Proof.
  assert (Hword : Forall (λ c, isWordChar c = true) (str "sales.2024")).
  { apply Forall_forall. intros c Hc. vm_compute in Hc.
    repeat (apply elem_of_cons in Hc as [->|Hc]; [done|]). by apply elem_of_nil in Hc. }
  assert (Hyes : mightBeTibble (str "x <- 1
sales.2024 = READ.CSV(path)") (str "sales.2024") = true) by (vm_compute; reflexivity).
  split; [exact Hyes|].
  exact (proj1 (mightBeTibble_iff _ _ Hword) Hyes).
Defined.

(** X10: more text never hides an assignment: when [mightBeTibble] answers
    yes for a text, it answers yes for every text that holds it, whatever
    comes before and after. *)
Theorem mightBeTibble_extends (before text after varName : jsstring) :
  Forall (λ c, isWordChar c = true) varName →
  mightBeTibble text varName = true →
  mightBeTibble (before ++ text ++ after) varName = true.
Proof.
  intros _. rewrite !mightBeTibble_tests.
  intros [(pattern & Hin & Htest)|Htest].
  - left. exists pattern. split; [done|]. by apply test_extends.
  - right. by apply test_extends.
Qed.

Lemma mightBeTibble_extends_witness :
  mightBeTibble (str "# load
" ++ str "d <- raw |> head()" ++ str "
print(d)") (str "d") = true.
Proof.
  apply (mightBeTibble_extends (str "# load
") (str "d <- raw |> head()") (str "
print(d)") (str "d")).
  - by repeat constructor.
  - vm_compute; reflexivity.
Defined.

(** ** The folding of code sections *)

Lemma Forall_eqb_repeat (c : N) (s : jsstring) :
  Forall (λ d, (d =? c)%N = true) s ↔ ∃ k, s = repeat c k.
Proof.
  split.
  - induction 1 as [|d s Hd _ (k & ->)]; [by exists 0|].
    apply N.eqb_eq in Hd as ->. by exists (S k).
  - intros (k & ->). induction k as [|k IH]; constructor; [apply N.eqb_refl|done].
Qed.

Lemma Matches_atLeast_Lit (n : nat) (c : N) (s : jsstring) :
  Matches (atLeast n (Chr (Lit c))) s ↔ ∃ k, s = repeat c (n + k).
Proof.
  revert s. induction n as [|n IH]; intros s.
  - change (atLeast 0 (Chr (Lit c))) with (Star (Chr (Lit c))).
    rewrite Matches_Star_Chr. apply Forall_eqb_repeat.
  - change (atLeast (S n) (Chr (Lit c)))
      with (Seq (Chr (Lit c)) (atLeast n (Chr (Lit c)))).
    rewrite Matches_Seq. split.
    + intros (s1 & s2 & -> & (d & -> & Hd)%Matches_Chr & (k & ->)%IH).
      simpl in Hd. apply N.eqb_eq in Hd as ->. by exists k.
    + intros (k & ->). exists [c], (repeat c (n + k)). split; [done|].
      split; [constructor; simpl; apply N.eqb_refl|]. apply IH. by exists k.
Qed.

Lemma endsWithDashes_iff (lineText : jsstring) :
  fullMatch endsWithDashesRegex lineText = true
  ↔ ∃ mid spaces,
      lineText = str "#" ++ mid ++ str "----" ++ spaces
      ∧ Forall (λ c, isLineTerminator c = false) mid
      ∧ Forall (λ c, isWhiteSpace c = true) spaces.
Proof.
  rewrite fullMatch_Matches. unfold endsWithDashesRegex. split.
  - intros (s1 & s2 & -> & ->%Matches_literal & H)%Matches_Seq.
    apply Matches_Seq in H as (mid & s3 & -> & Hmid%Matches_Dot_star & H).
    apply Matches_Seq in H as (dashes & spaces & -> & Hd & Hsp%Matches_Star_Chr).
    apply Matches_atLeast_Lit in Hd as (k & ->).
    exists (mid ++ repeat (chr "-") k), spaces.
    split; [|split; [|done]].
    + replace (4 + k) with (k + 4) by lia.
      rewrite repeat_app. by rewrite <- !(assoc_L (++)).
    + apply Forall_app. split; [done|].
      apply Forall_forall. intros c Hc. apply list_elem_of_In, repeat_spec in Hc.
      by subst.
  - intros (mid & spaces & -> & Hmid & Hsp).
    apply MSeq; [by apply Matches_literal|].
    apply MSeq; [by apply Matches_Dot_star|].
    apply MSeq; [|by apply Matches_Star_Chr].
    apply Matches_atLeast_Lit. by exists 0.
Qed.

Lemma startsWithHashes_iff (s : jsstring) :
  matchesAt startsWithHashesRegex s = true ↔ ∃ rest, s = str "####" ++ rest.
Proof.
  rewrite matchesAt_Matches. unfold startsWithHashesRegex. split.
  - intros (m & rest & -> & (k & ->)%Matches_atLeast_Lit).
    exists (repeat (chr "#") k ++ rest).
    replace (4 + k) with (k + 4) by lia.
    rewrite repeat_app, <- !(assoc_L (++)).
    clear. induction k as [|k IH]; [done|]. simpl in *. by rewrite IH.
  - intros (rest & ->). exists (str "####"), rest. split; [done|].
    apply Matches_atLeast_Lit. by exists 0.
Qed.

(** X11: which lines are section headers.  A line is one exactly when it
    starts with [#] at its first column and ends with four dashes and then
    white space or nothing, with no line terminator before the dashes; or
    when, white space at its ends set aside, it starts with four [#]. *)
Theorem isSectionHeader_iff (lineText : jsstring) :
  isSectionHeader lineText = true
  ↔ (∃ mid spaces,
       lineText = str "#" ++ mid ++ str "----" ++ spaces
       ∧ Forall (λ c, isLineTerminator c = false) mid
       ∧ Forall (λ c, isWhiteSpace c = true) spaces)
    ∨ (∃ rest, trim lineText = str "####" ++ rest).
Proof.
  unfold isSectionHeader.
  by rewrite orb_true_iff, endsWithDashes_iff, startsWithHashes_iff.
Qed.

Lemma sectionStartsFrom_elem (i : nat) (lines : list jsstring) (j : nat) :
  j ∈ sectionStartsFrom i lines ↔ i ≤ j ∧ headerAt lines (j - i).
Proof.
  unfold headerAt. revert i. induction lines as [|lineText lines IH]; intros i.
  - simpl. split; [by intros ?%elem_of_nil|]. by intros (_ & l & ? & _).
  - assert (Hlater : j ∈ sectionStartsFrom (S i) lines
              ↔ i < j ∧ ∃ l, (lineText :: lines) !! (j - i) = Some l
                             ∧ isSectionHeader l = true).
    { rewrite IH. split.
      - intros (Hj & l & Hl & Hh). split; [lia|]. exists l. split; [|done].
        by replace (j - i) with (S (j - S i)) by lia.
      - intros (Hj & l & Hl & Hh). split; [lia|]. exists l. split; [|done].
        by replace (j - i) with (S (j - S i)) in Hl by lia. }
    cbn [sectionStartsFrom]. destruct (isSectionHeader lineText) eqn:Hhead.
    + rewrite elem_of_cons, Hlater. split.
      * intros [->|(Hj & Hl)]; [|split; [lia|done]].
        split; [lia|]. exists lineText. by rewrite Nat.sub_diag.
      * intros (Hj & Hl). destruct (decide (j = i)) as [->|]; [by left|].
        right. split; [lia|done].
    + rewrite Hlater. split.
      * intros (Hj & Hl). split; [lia|done].
      * intros (Hj & l & Hl & Hh). destruct (decide (j = i)) as [->|].
        { rewrite Nat.sub_diag in Hl. injection Hl as <-. congruence. }
        split; [lia|by exists l].
Qed.

Lemma sectionStartsFrom_sorted (i : nat) (lines : list jsstring) :
  StronglySorted lt (sectionStartsFrom i lines).
Proof.
  revert i. induction lines as [|lineText lines IH]; intros i; [constructor|].
  cbn [sectionStartsFrom]. destruct (isSectionHeader lineText); [|done].
  constructor; [done|]. apply Forall_forall. intros j Hj.
  apply sectionStartsFrom_elem in Hj. lia.
Qed.

Lemma sorted_split (pre post : list nat) (a : nat) :
  StronglySorted lt (pre ++ a :: post) →
  Forall (λ x, x < a) pre ∧ Forall (λ x, a < x) post ∧ StronglySorted lt post.
Proof.
  induction pre as [|y pre IH]; intros Hs.
  - simpl in Hs. apply StronglySorted_inv in Hs as [Hs Hall]. by repeat split.
  - simpl in Hs. apply StronglySorted_inv in Hs as [Hs Hall].
    destruct (IH Hs) as (Hpre & Hpost & Hsp).
    apply Forall_app in Hall as [_ Hall]. apply Forall_cons in Hall as [Hya _].
    repeat split; [|done|done]. by constructor.
Qed.

Lemma rangesOf_elem (sectionStarts : list nat) (lineCount a b : nat) :
  {| startLine := a; endLine := b |} ∈ rangesOf sectionStarts lineCount
  ↔ ∃ pre post,
      sectionStarts = pre ++ a :: post
      ∧ b = match post with next :: _ => next - 1 | [] => lineCount - 1 end
      ∧ a < b.
Proof.
  induction sectionStarts as [|x rest IH].
  - simpl. split; [by intros ?%elem_of_nil|]. intros (pre & post & Heq & _).
    by destruct pre.
  - cbn [rangesOf].
    set (e := match rest with next :: _ => next - 1 | [] => lineCount - 1 end).
    assert (Htail : {| startLine := a; endLine := b |} ∈ rangesOf rest lineCount →
              ∃ pre post, x :: rest = pre ++ a :: post
                ∧ b = match post with next :: _ => next - 1 | [] => lineCount - 1 end
                ∧ a < b).
    { intros (pre & post & -> & Hb & Hab)%IH. by exists (x :: pre), post. }
    assert (Hfrom : (∃ pre post, x :: rest = pre ++ a :: post
                ∧ b = match post with next :: _ => next - 1 | [] => lineCount - 1 end
                ∧ a < b) →
              (a = x ∧ b = e ∧ x < e)
              ∨ {| startLine := a; endLine := b |} ∈ rangesOf rest lineCount).
    { intros (pre & post & Heq & Hb & Hab). destruct pre as [|y pre].
      - left. injection Heq as -> ->. by subst e; subst b.
      - right. injection Heq as -> ->. apply IH. by exists pre, post. }
    destruct (Nat.ltb_spec x e) as [Hlt|Hge].
    + rewrite elem_of_cons. split.
      * intros [[= -> ->]|Hin]; [|by apply Htail].
        by exists [], rest.
      * intros H. destruct (Hfrom H) as [(-> & -> & _)|Hin]; [by left|by right].
    + split; [done|]. intros H. destruct (Hfrom H) as [(_ & _ & ?)|Hin]; [lia|done].
Qed.

Lemma headerAt_lt (lines : list jsstring) (i : nat) :
  headerAt lines i → i < length lines.
Proof. intros (l & Hl & _). by apply lookup_lt_Some in Hl. Qed.

Lemma sectionStarts_headerAt (lines : list jsstring) (j : nat) :
  j ∈ sectionStartsFrom 0 lines ↔ headerAt lines j.
Proof.
  rewrite sectionStartsFrom_elem, Nat.sub_0_r. split; [by intros [_ ?]|].
  intros H. split; [lia|done].
Qed.

(** X12: the folding ranges are the sections.  A range from line [a] to
    line [b] is returned exactly when [a] is a header, [b] is a line
    further down, no line after [a] up to [b] is a header, and [b] is the
    last line or the line before a header.  So a header directly followed
    by a header, or on the last line, folds nothing. *)
Theorem provideFoldingRanges_iff (lines : list jsstring) (a b : nat) :
  {| startLine := a; endLine := b |} ∈ provideFoldingRanges lines
  ↔ headerAt lines a
    ∧ a < b < length lines
    ∧ (∀ j, a < j ≤ b → ¬ headerAt lines j)
    ∧ (S b = length lines ∨ headerAt lines (S b)).
Proof.
  unfold provideFoldingRanges. rewrite rangesOf_elem.
  pose proof (sectionStartsFrom_sorted 0 lines) as Hsorted.
  split.
  - intros (pre & post & Hstarts & Hb & Hab).
    rewrite Hstarts in Hsorted.
    destruct (sorted_split _ _ _ Hsorted) as (Hpre & Hpost & Hsp).
    assert (Hin : ∀ j, headerAt lines j → j ∈ pre ++ a :: post).
    { intros j Hj. rewrite <- Hstarts. by apply sectionStarts_headerAt. }
    assert (Hout : ∀ j, j ∈ pre ++ a :: post → headerAt lines j).
    { intros j Hj. rewrite <- Hstarts in Hj. by apply sectionStarts_headerAt. }
    assert (Ha : headerAt lines a).
    { apply Hout. apply elem_of_app. right. by left. }
    pose proof (headerAt_lt _ _ Ha) as Hlen.
    destruct post as [|next post].
    + split; [done|]. split; [lia|]. split; [|left; lia].
      intros j Hj Hhead. apply Hin in Hhead.
      apply elem_of_app in Hhead as [Hhead|Hhead].
      * rewrite Forall_forall in Hpre. specialize (Hpre j Hhead). lia.
      * apply elem_of_cons in Hhead as [->|Hhead]; [lia|by apply elem_of_nil in Hhead].
    + assert (Hnext : headerAt lines next).
      { apply Hout. apply elem_of_app. right. right. by left. }
      pose proof (headerAt_lt _ _ Hnext) as Hnlen.
      apply Forall_cons in Hpost as [Han Hpost].
      apply StronglySorted_inv in Hsp as [_ Hafter].
      split; [done|]. split; [lia|]. split.
      * intros j Hj Hhead. apply Hin in Hhead.
        apply elem_of_app in Hhead as [Hhead|Hhead].
        { rewrite Forall_forall in Hpre. specialize (Hpre j Hhead). lia. }
        apply elem_of_cons in Hhead as [->|Hhead]; [lia|].
        apply elem_of_cons in Hhead as [->|Hhead]; [lia|].
        rewrite Forall_forall in Hafter. specialize (Hafter j Hhead). lia.
      * right. by replace (S b) with next by lia.
  - intros (Ha & Hab & Hnone & Hend).
    pose proof Ha as Hstarts. apply sectionStarts_headerAt in Hstarts.
    apply list_elem_of_split in Hstarts as (pre & post & Hstarts).
    exists pre, post. split; [done|]. split; [|lia].
    rewrite Hstarts in Hsorted.
    destruct (sorted_split _ _ _ Hsorted) as (Hpre & Hpost & Hsp).
    assert (Hin : ∀ j, headerAt lines j → j ∈ pre ++ a :: post).
    { intros j Hj. rewrite <- Hstarts. by apply sectionStarts_headerAt. }
    assert (Hout : ∀ j, j ∈ pre ++ a :: post → headerAt lines j).
    { intros j Hj. rewrite <- Hstarts in Hj. by apply sectionStarts_headerAt. }
    assert (Hlater : ∀ j, a < j → headerAt lines j → j ∈ post).
    { intros j Hj Hhead. apply Hin in Hhead.
      apply elem_of_app in Hhead as [Hhead|Hhead].
      - rewrite Forall_forall in Hpre. specialize (Hpre j Hhead). lia.
      - apply elem_of_cons in Hhead as [->|Hhead]; [lia|done]. }
    destruct post as [|next post].
    + destruct Hend as [Hend|Hend]; [lia|].
      apply Hlater in Hend; [|lia]. by apply elem_of_nil in Hend.
    + assert (Hnext : headerAt lines next).
      { apply Hout. apply elem_of_app. right. right. by left. }
      pose proof (headerAt_lt _ _ Hnext) as Hnlen.
      apply Forall_cons in Hpost as [Han Hpost].
      apply StronglySorted_inv in Hsp as [_ Hafter].
      assert (Hnb : b < next).
      { destruct (decide (b < next)) as [|Hle]; [done|].
        destruct (Hnone next); [lia|done]. }
      destruct Hend as [Hend|Hend]; [lia|].
      apply Hlater in Hend; [|lia].
      apply elem_of_cons in Hend as [Hend|Hend]; [lia|].
      rewrite Forall_forall in Hafter. specialize (Hafter _ Hend). lia.
Qed.

Lemma rangesOf_sorted (sectionStarts : list nat) (lineCount : nat) :
  StronglySorted lt sectionStarts →
  StronglySorted (λ r1 r2, endLine r1 < startLine r2)
    (rangesOf sectionStarts lineCount).
Proof.
  induction 1 as [|x rest Hsorted IH Hall]; [constructor|].
  cbn [rangesOf]. destruct (Nat.ltb_spec x
    (match rest with next :: _ => next - 1 | [] => lineCount - 1 end)) as [Hlt|_];
    [|done].
  constructor; [done|]. apply Forall_forall. intros [a b] Hin.
  apply rangesOf_elem in Hin as (pre & post & Hrest & _ & _).
  cbn [endLine startLine]. destruct rest as [|next rest]; [by destruct pre|].
  apply Forall_cons in Hall as [Hxn _].
  assert (next ≤ a); [|lia].
  destruct pre as [|y pre]; injection Hrest as -> Hrest; [lia|].
  apply StronglySorted_inv in Hsorted as [_ Hafter].
  rewrite Hrest in Hafter. apply Forall_app in Hafter as [_ Hafter].
  apply Forall_cons in Hafter as [? _]. lia.
Qed.

(** X13: the folding ranges come in the order of the lines and never
    overlap: each one ends above the line where the next one starts. *)
Theorem provideFoldingRanges_ordered (lines : list jsstring) :
  StronglySorted (λ r1 r2, endLine r1 < startLine r2)
    (provideFoldingRanges lines).
Proof. apply rangesOf_sorted, sectionStartsFrom_sorted. Qed.

(** ** The rows shown, over any run of events *)

Lemma indexRows_rowsOk (rows : list (list jsstring)) : rowsOk rows (indexRows rows).
Proof.
  unfold rowsOk, indexRows. split.
  - intros r (i & row & -> & Hrow)%elem_of_lookup_imap. done.
  - change map with (@fmap list _). rewrite fmap_imap.
    rewrite (imap_ext _ (λ (i : nat) (_ : list jsstring), id i)) by done.
    rewrite imap_seq_0, list_fmap_id. apply NoDup_seq.
Qed.

Lemma rowsOk_sublist (rows : list (list jsstring)) (shown kept : list DisplayRow) :
  rowsOk rows shown → kept `sublist_of` shown → rowsOk rows kept.
Proof.
  intros [Hdata Hnodup] Hsub. split.
  - intros r Hr. apply Hdata. by eapply elem_of_sublist.
  - eapply sublist_NoDup; [exact Hnodup|]. by apply fmap_sublist.
Qed.

Lemma rowsOk_Permutation (rows : list (list jsstring)) (shown sorted : list DisplayRow) :
  rowsOk rows shown → sorted ≡ₚ shown → rowsOk rows sorted.
Proof.
  intros [Hdata Hnodup] Hperm. split.
  - intros r Hr. apply Hdata. by rewrite <- Hperm.
  - change map with (@fmap list _). by rewrite Hperm.
Qed.

Section Rows.
Context `{Host} {engine : SortEngine}.

Lemma applyFiltersAndSort_rows (v : View) :
  Conforming engine →
  originalRows (applyFiltersAndSort v) = originalRows v
  ∧ rowsOk (originalRows v) (displayRows (applyFiltersAndSort v)).
Proof.
  intros Hconf.
  split; [unfold applyFiltersAndSort, renderTableBody; by view_fields|].
  destruct (applyFiltersAndSort_window v) as (_ & _ & ->).
  eapply rowsOk_Permutation; [|by apply sortRows_Permutation].
  rewrite filterRows_spec.
  eapply rowsOk_sublist; [apply indexRows_rowsOk|apply sublist_filter].
Qed.

Lemma react_rows (rows : list (list jsstring)) (v : View) (e : Event) :
  Conforming engine →
  originalRows v = rows ∧ rowsOk rows (displayRows v) →
  originalRows (react v e) = rows ∧ rowsOk rows (displayRows (react v e)).
Proof.
  intros Hconf [Horig Hrows].
  assert (Hrecompute : ∀ v', originalRows v' = rows →
            originalRows (applyFiltersAndSort v') = rows
            ∧ rowsOk rows (displayRows (applyFiltersAndSort v'))).
  { intros v' Hv'. destruct (applyFiltersAndSort_rows v' Hconf) as [Ho Hr].
    rewrite Hv' in Ho, Hr. done. }
  destruct e as [nearBottom|c text| | | |c|]; cbn [react].
  - unfold scrollTimer. destruct (_ && _); [|done].
    destruct (extend_window v) as (-> & _ & _). split; [|done].
    unfold extend. destruct (_ <? _); [|done].
    unfold renderMoreRows. by view_fields.
  - done.
  - by apply Hrecompute.
  - by apply Hrecompute.
  - by apply Hrecompute.
  - unfold sortHeaderClick. view_fields.
    destruct (5000 <? length (originalRows v)); cbn [fst]; [done|].
    by apply Hrecompute.
  - by apply Hrecompute.
Qed.

(** X14: whatever the user does, the rows shown are rows of the payload:
    on every engine that conforms to the language, after any run of events
    the payload is the one the page was loaded
    with, each row of the filtered and sorted sequence is the payload's row
    at the row's original index (from which its row number is made), no
    payload row stands in the sequence twice, and the table body shows the
    sequence's first rows. *)
Theorem shown_rows_are_payload_rows (rows : list (list jsstring)) (ncol : nat)
    (events : list Event) :
  Conforming engine →
  let v := foldl react (initialView rows ncol) events in
  originalRows v = rows
  ∧ (∀ r, r ∈ displayRows v → rows !! originalIndex r = Some (data r))
  ∧ NoDup (map originalIndex (displayRows v))
  ∧ tableBody v `prefix_of` displayRows v.
Proof.
  intros Hconf v.
  assert (Hinv : originalRows v = rows ∧ rowsOk rows (displayRows v)).
  { subst v.
    assert (Hstart : originalRows (initialView rows ncol) = rows
                     ∧ rowsOk rows (displayRows (initialView rows ncol))).
    { unfold initialView, renderTableBody. view_fields.
      split; [done|apply indexRows_rowsOk]. }
    revert Hstart. generalize (initialView rows ncol) as v0.
    induction events as [|e events IH]; intros v0 Hstart; [done|].
    cbn [foldl]. by apply IH, react_rows. }
  destruct Hinv as (Horig & Hdata & Hnodup).
  split; [done|]. split; [done|]. split; [done|].
  destruct (run_ok rows ncol events) as (_ & Hbody & _). fold v in Hbody.
  rewrite Hbody. apply prefix_take.
Qed.

Lemma react_scrollOk (v : View) (e : Event) : scrollOk v → scrollOk (react v e).
Proof.
  intros (Hok & Hend & Hscroll).
  split; [by apply react_ok|].
  assert (Hrecompute : ∀ v',
            ROWS_PER_BATCH ≤ visibleEndIndex (applyFiltersAndSort v')
            ∧ (ROWS_PER_BATCH < length (displayRows (applyFiltersAndSort v')) →
               onscroll (applyFiltersAndSort v') = true)).
  { intros v'. destruct (applyFiltersAndSort_window v') as (Hw & _ & _).
    assert (He : visibleEndIndex (applyFiltersAndSort v') = ROWS_PER_BATCH)
      by exact (f_equal snd Hw).
    split; [by rewrite He|].
    unfold applyFiltersAndSort, renderTableBody. view_fields.
    intros Hlen. by rewrite (proj2 (Nat.ltb_lt _ _) Hlen). }
  destruct e as [nearBottom|c text| | | |c|]; cbn [react];
    try apply Hrecompute.
  - unfold scrollTimer. destruct (_ && _); [|done].
    destruct (extend_window v) as (Hrows & _ & Hnew). rewrite Hrows, Hnew.
    split.
    + destruct (Nat.ltb_spec (visibleEndIndex v) (length (displayRows v))); lia.
    + intros Hlen. rewrite <- (Hscroll Hlen). unfold extend.
      destruct (_ <? _); [|done]. unfold renderMoreRows. by view_fields.
  - done.
  - unfold sortHeaderClick. view_fields.
    destruct (5000 <? length (originalRows v)); cbn [fst]; [done|].
    apply Hrecompute.
Qed.

Lemma scrollTimer_advances (v : View) :
  scrollOk v →
  displayRows (scrollTimer true v) = displayRows v
  ∧ (visibleEndIndex v + ROWS_PER_BATCH) `min` length (displayRows v)
    ≤ visibleEndIndex (scrollTimer true v).
Proof.
  intros (_ & Hend & Hscroll). unfold scrollTimer.
  destruct (onscroll v) eqn:Hon; cbn [andb].
  - destruct (extend_window v) as (-> & _ & ->). split; [done|].
    destruct (Nat.ltb_spec (visibleEndIndex v) (length (displayRows v))); lia.
  - split; [done|].
    destruct (decide (ROWS_PER_BATCH < length (displayRows v))) as [Hlen|Hlen]; [|lia].
    by specialize (Hscroll Hlen).
Qed.

Lemma scrolls_advance (k : nat) (v : View) :
  scrollOk v →
  let v' := foldl react v (replicate k (EvScrollTimer true)) in
  scrollOk v'
  ∧ displayRows v' = displayRows v
  ∧ (visibleEndIndex v + ROWS_PER_BATCH * k) `min` length (displayRows v)
    ≤ visibleEndIndex v'.
Proof.
  revert v. induction k as [|k IH]; intros v Hok; cbn [replicate foldl react].
  - split; [done|]. split; [done|]. lia.
  - destruct (scrollTimer_advances v Hok) as (Hrows & Hadv).
    destruct (IH (scrollTimer true v)) as (Hok' & Hrows' & Hadv').
    { exact (react_scrollOk v (EvScrollTimer true) Hok). }
    split; [done|]. split; [by rewrite Hrows', Hrows|].
    rewrite Hrows in Hadv'. lia.
Qed.

(** X15: scrolling reaches every row.  For a page whose script runs as it
    was written (the variable's name, the column names and the cells hold
    no [<]), after any run of events, [k] more scroll timers that find the view near
    its bottom leave the filtered and sorted sequence as it is and the
    table body with all of its rows, as soon as [k + 1] batches of 100 rows
    cover the sequence. *)
Theorem scroll_reaches_every_row (variableName : jsstring)
    (columns : list jsstring) (rows : list (list jsstring))
    (events : list Event) (k : nat) :
  scriptSafe variableName columns rows →
  let v := foldl react (initialView rows (length columns)) events in
  let v' := foldl react v (replicate k (EvScrollTimer true)) in
  length (displayRows v) ≤ 100 * (k + 1) →
  displayRows v' = displayRows v ∧ tableBody v' = displayRows v.
Proof.
  intros _ v v' Hk.
  assert (Hok : scrollOk v).
  { subst v v'. clear Hk.
    assert (Hstart : scrollOk (initialView rows (length columns))).
    { split; [apply initialView_ok|].
      unfold initialView, renderTableBody. view_fields. split; [done|].
      intros Hlen. by rewrite (proj2 (Nat.ltb_lt _ _) Hlen). }
    revert Hstart. generalize (initialView rows (length columns)) as v0.
    induction events as [|e events IH]; intros v0 Hstart; [done|].
    cbn [foldl]. by apply IH, react_scrollOk. }
  destruct (scrolls_advance k v Hok) as (((_ & Hbody & _) & _ & _) & Hrows & Hadv).
  fold v' in Hbody, Hrows, Hadv.
  destruct Hok as (_ & Hend & _).
  split; [done|]. rewrite Hbody, Hrows. apply take_ge.
  unfold ROWS_PER_BATCH in *. lia.
Qed.
End Rows.

(** A filter on the names and a sort on the ages of the three people, on
    the engine that reverses runs. *)
Lemma shown_rows_are_payload_rows_witness :
  let v := foldl (@react exampleHost runEngine) (initialView people 2)
             [EvFilterInput 0 (str "a"); EvFilterTimer; EvHeaderClick 1] in
  Conforming runEngine
  ∧ originalRows v = people
  ∧ NoDup (map originalIndex (displayRows v))
  ∧ tableBody v `prefix_of` displayRows v.
Proof.
  intros v. split; [exact runEngine_conforming|].
  destruct (@shown_rows_are_payload_rows exampleHost runEngine people 2
              [EvFilterInput 0 (str "a"); EvFilterTimer; EvHeaderClick 1]
              runEngine_conforming) as (Horig & _ & Hnodup & Hbody).
  split; [exact Horig|]. split; [exact Hnodup|exact Hbody].
Defined.

Lemma scroll_reaches_every_row_witness :
  let rows := replicate 250 [str "x"] in
  let v := foldl (@react exampleHost insertionEngine)
             (initialView rows (length [str "c"])) [EvHeaderClick 0] in
  let v' := foldl (@react exampleHost insertionEngine) v
              (replicate 2 (EvScrollTimer true)) in
  scriptSafe (str "df") [str "c"] rows
  ∧ length (displayRows v) ≤ 100 * (2 + 1)
  ∧ length (tableBody v) = 100
  ∧ tableBody v' = displayRows v.
Proof.
  intros rows v v'.
  assert (Hsafe : scriptSafe (str "df") [str "c"] rows).
  { split; [by apply (bool_decide_unpack _)|]. split.
    - constructor; [|constructor]. by apply (bool_decide_unpack _).
    - apply Forall_forall. intros row [-> _]%elem_of_replicate.
      constructor; [|constructor]. by apply (bool_decide_unpack _). }
  assert (Hlen : length (displayRows v) ≤ 100 * (2 + 1)).
  { apply Nat.leb_le. vm_compute. reflexivity. }
  split; [exact Hsafe|]. split; [exact Hlen|]. split; [vm_compute; reflexivity|].
  exact (proj2 (@scroll_reaches_every_row exampleHost insertionEngine (str "df")
                  [str "c"] rows [EvHeaderClick 0] 2 Hsafe Hlen)).
Defined.

(** ** A drag follows the pointer *)

Lemma resized_resized (w1 w2 : Z) (header : bool) (old : CellStyle) :
  resized w2 header (resized w1 header old) = resized w2 header old.
Proof. unfold resized. by destruct header. Qed.

(** X16: a drag follows the pointer and nothing else: the widths a move
    sets depend on where the drag started and where the pointer is now, not
    on the moves made in between, and once the button is released moves
    change nothing. *)
Theorem drag_follows_pointer (x1 x2 : Z) (d : Drag) (t t1 : TableCells) :
  mousemove x1 d t = Some t1 →
  mousemove x2 d t1 = mousemove x2 d t
  ∧ mousemove x2 (mouseup d) t1 = Some t1.
Proof.
  intros Hmove. split.
  - unfold mousemove in *. destruct (isResizing d); cbn [negb] in *;
      [|by injection Hmove as <-].
    destruct (filterRow t !! default 0 (currentCol d)) as [filterTh|] eqn:Hf; [|done].
    destruct (headerRow t !! default 0 (currentCol d)) as [headerTh|] eqn:Hh; [|done].
    injection Hmove as <-. cbn [filterRow headerRow bodyRows].
    rewrite !list_lookup_insert_eq by (by eapply lookup_lt_Some).
    rewrite !list_insert_insert_eq, !resized_resized. f_equal. f_equal.
    rewrite <- list_fmap_compose. apply list_fmap_ext. intros i cells _.
    unfold compose. rewrite list_alter_alter_eq. apply list_alter_ext; [|done].
    intros old _. apply resized_resized.
  - apply mousemove_idle. unfold mouseup. by destruct (isResizing d) eqn:Hd.
Qed.

Lemma drag_follows_pointer_witness :
  let auto := {| width := None; minWidth := Some 80%Z; maxWidth := None |} in
  let cell := {| width := None; minWidth := None; maxWidth := None |} in
  let t := {| filterRow := [auto; auto]; headerRow := [auto; auto];
              bodyRows := [[cell; cell]] |} in
  let d := mousedown 1 300 120 noDrag in
  ∃ t1, mousemove 340 d t = Some t1
        ∧ mousemove 275 d t1 = mousemove 275 d t
        ∧ mousemove 275 (mouseup d) t1 = Some t1.
Proof.
  intros auto cell t d.
  destruct (mousemove 340 d t) as [t1|] eqn:Hmove; [|discriminate Hmove].
  exists t1. split; [reflexivity|].
  exact (drag_follows_pointer 340 275 d t t1 Hmove).
Defined.

(** ** Filters narrow *)

Lemma includes_spec (s p : jsstring) :
  includes s p = true ↔ ∃ before after, s = before ++ p ++ after.
Proof.
  induction s as [|c s IH]; cbn [includes].
  - rewrite orb_false_r, startsWith_prefix. split.
    + intros (rest & ->). by exists [], rest.
    + intros (before & after & Heq). symmetry in Heq.
      apply app_eq_nil in Heq as [_ Heq]. apply app_eq_nil in Heq as [-> ->].
      by exists [].
  - rewrite orb_true_iff, startsWith_prefix, IH. split.
    + intros [(rest & ->)|(before & after & ->)].
      * by exists [], rest.
      * by exists (c :: before), after.
    + intros (before & after & Heq). destruct before as [|d before].
      * left. by exists after.
      * injection Heq as <- ->. right. by exists before, after.
Qed.

Lemma includes_trans (s q p : jsstring) :
  includes s q = true → includes q p = true → includes s p = true.
Proof.
  rewrite !includes_spec. intros (b1 & a1 & ->) (b2 & a2 & ->).
  exists (b1 ++ b2), (a2 ++ a1). by rewrite <- !(assoc_L (++)).
Qed.

Lemma filter_sublist_impl {A} (P Q : A → Prop) `{!∀ x, Decision (P x)}
    `{!∀ x, Decision (Q x)} (l : list A) :
  (∀ x, Q x → P x) → filter Q l `sublist_of` filter P l.
Proof.
  intros Himpl. induction l as [|x l IH]; [done|].
  rewrite !filter_cons. destruct (decide (Q x)) as [HQ|HQ].
  - rewrite decide_True by auto. by apply sublist_skip.
  - destruct (decide (P x)); [by apply sublist_cons|done].
Qed.

Section Narrowing.
Context `{Host}.

(** X17: a longer filter text narrows.  When each predicate of a filter
    map is contained in the predicate that a second map holds for the same
    column, the rows that pass the second map are among the rows that pass
    the first, in the same order. *)
Theorem filterRows_narrows (rows : list (list jsstring))
    (filters filters' : gmap nat jsstring) :
  (∀ c value, filters !! c = Some value →
     ∃ value', filters' !! c = Some value' ∧ includes value' value = true) →
  filterRows rows filters' `sublist_of` filterRows rows filters.
Proof.
  intros Hlonger. rewrite !filterRows_spec. apply filter_sublist_impl.
  intros r Hpass c value Hc.
  destruct (Hlonger c value Hc) as (value' & Hc' & Hin).
  apply (includes_trans _ value'); [|done]. exact (Hpass c value' Hc').
Qed.
End Narrowing.

Lemma filterRows_narrows_witness :
  @filterRows exampleHost people {[ 0 := str "al" ]}
  `sublist_of` @filterRows exampleHost people {[ 0 := str "a" ]}.
Proof.
  apply (@filterRows_narrows exampleHost people {[ 0 := str "a" ]}
           {[ 0 := str "al" ]}).
  intros c value [-> <-]%lookup_singleton_Some.
  exists (str "al"). split; [apply lookup_singleton_eq|reflexivity].
Defined.

(** ** Three clicks on a new column *)

(** X18: three clicks on the header of a column that has no sort key add
    its key, reverse it and remove it: the stack is then the one before the
    clicks, unless it was full: the first click then dropped its last key,
    and that key does not come back. *)
Theorem three_clicks_cycle (c : nat) (stack : list SortKey) :
  c ∉ stackCols stack →
  length stack ≤ 3 →
  headerClick c (headerClick c (headerClick c stack))
  = if length stack <? 3 then stack else removelast stack.
Proof.
  intros Hnew Hlen.
  assert (Hfirst : headerClick c stack
                   = {| col := c; dir := asc |}
                     :: (if length stack <? 3 then stack else removelast stack)).
  { unfold headerClick. rewrite (findIndex_absent _ _ Hnew). unfold limitStack.
    cbn [length].
    destruct stack as [|s1 [|s2 [|s3 [|s4 stack]]]]; cbn [length] in *;
      try reflexivity; lia. }
  assert (Hshort : length (if length stack <? 3 then stack else removelast stack) ≤ 2).
  { destruct stack as [|s1 [|s2 [|s3 [|s4 stack]]]]; cbn [length] in *;
      simpl; lia. }
  rewrite Hfirst.
  generalize dependent (if length stack <? 3 then stack else removelast stack).
  intros rest _ Hrest.
  assert (Hsecond : headerClick c ({| col := c; dir := asc |} :: rest)
                    = {| col := c; dir := desc |} :: rest).
  { unfold headerClick. cbn [findIndex col]. rewrite decide_True by done.
    cbn [dir col]. apply limitStack_short. cbn [length]. lia. }
  rewrite Hsecond. unfold headerClick. cbn [findIndex col].
  rewrite decide_True by done. cbn [dir]. apply limitStack_short. lia.
Qed.

Lemma three_clicks_cycle_witness :
  let full := [{| col := 0; dir := asc |}; {| col := 1; dir := desc |};
               {| col := 2; dir := asc |}] in
  headerClick 5 (headerClick 5 (headerClick 5 full))
  = [{| col := 0; dir := asc |}; {| col := 1; dir := desc |}].
Proof.
  intros full. apply (three_clicks_cycle 5 full).
  - unfold stackCols, full. cbn [map col]. by apply (bool_decide_unpack _).
  - cbn [length full]. lia.
Defined.

(** ** [_escapeHtml] loses nothing *)

Lemma escapeUnit_head (x y : N) (rest rest' : jsstring) :
  escapeUnit x ++ rest = escapeUnit y ++ rest' → x = y ∧ rest = rest'.
Proof.
  unfold escapeUnit, AMP, LT_, GT_, QUOT, APOS.
  destruct (N.eqb_spec x 38) as [->|?]; [|destruct (N.eqb_spec x 60) as [->|?];
    [|destruct (N.eqb_spec x 62) as [->|?]; [|destruct (N.eqb_spec x 34) as [->|?];
    [|destruct (N.eqb_spec x 39) as [->|?]]]]];
  (destruct (N.eqb_spec y 38) as [->|?]; [|destruct (N.eqb_spec y 60) as [->|?];
    [|destruct (N.eqb_spec y 62) as [->|?]; [|destruct (N.eqb_spec y 34) as [->|?];
    [|destruct (N.eqb_spec y 39) as [->|?]]]]]);
  intros Heq; vm_compute in Heq; try discriminate Heq;
  try (injection Heq; intros; subst; by auto).
Qed.

(** X19: escaping loses nothing: two texts with the same escaped text are
    the same text. *)
Theorem escapeHtml_injective (text text' : jsstring) :
  _escapeHtml text = _escapeHtml text' → text = text'.
Proof.
  rewrite !_escapeHtml_flat_map. revert text'.
  induction text as [|x text IH]; intros [|y text'] Heq; cbn [flat_map] in Heq.
  - done.
  - exfalso. revert Heq. unfold escapeUnit.
    repeat (destruct (_ =? _)%N; [discriminate|]). discriminate.
  - exfalso. revert Heq. unfold escapeUnit.
    repeat (destruct (_ =? _)%N; [discriminate|]). discriminate.
  - apply escapeUnit_head in Heq as [-> Heq]. f_equal. by apply IH.
Qed.

Lemma escapeHtml_injective_witness :
  _escapeHtml (str "a&lt;b") = str "a&amp;lt;b" ∧ str "a&lt;b" = str "a&lt;b".
Proof.
  split; [reflexivity|].
  apply (escapeHtml_injective (str "a&lt;b") (str "a&lt;b")). reflexivity.
Defined.

(** ** [openInDataExplorer] *)

(** X20: the four ways of [openInDataExplorer].  The code handed to R is
    always [View(name)], and once a call that hands it over resolves no
    other is made.  When the runtime or the console ran the code, the last
    call is the message that the variable is opened and the clipboard is
    not written.  When neither did, the code is written to the clipboard,
    whatever the internal console command did, and when that writing
    resolves the last call is the warning that says so; in each case the
    user is told at most one thing. *)
Theorem openInDataExplorer_outcome (w : Workbench) (variableName : jsstring) :
  let executed := hasRuntime w && runtimeResolves w || consoleResolves w in
  let calls := (openInDataExplorer w variableName).1 in
  let resolves := (openInDataExplorer w variableName).2 in
  Forall (λ e, ∀ code, executedCode e = Some code → code = viewCode variableName)
    calls
  ∧ length (filter (λ e, isMessage e = true) calls) ≤ 1
  ∧ (if executed
     then resolves = true
          ∧ last calls = Some (ShowInformationMessage (openingMessage variableName))
          ∧ ClipboardWriteText (viewCode variableName) ∉ calls
     else resolves = clipboardResolves w
          ∧ ClipboardWriteText (viewCode variableName) ∈ calls
          ∧ omap executedCode calls
            = (if hasRuntime w then [viewCode variableName] else [])
              ++ [viewCode variableName]
          ∧ (clipboardResolves w = true →
             last calls = Some (ShowWarningMessage (copiedMessage variableName)))).
Proof.
  intros executed calls resolves. subst executed calls resolves.
  unfold openInDataExplorer.
  destruct (hasRuntime w), (runtimeResolves w), (consoleResolves w),
    (internalResolves w), (clipboardResolves w);
    cbn [andb orb app fst snd last omap list_omap executedCode length];
    (split; [repeat constructor; intros code; cbn [executedCode]; congruence|]);
    (split; [vm_compute; lia|]);
    repeat split; try done;
    rewrite ?elem_of_cons, ?elem_of_nil; try (intros ?; done); intuition (try done).
Qed.
